(** * eld-frontend: the polyline codec, the map geometry and the form and
      API glue, embedded from the TypeScript sources.

    Conventions of the embedding.
    - A JavaScript string is the list of its UTF-16 code units ([list N]).
    - [charCodeAt] yields [None] for NaN (index out of range).
    - The bit operators work on 32-bit signed integers; [toInt32] writes
      the wrap-around out, and a shift count is taken modulo 32.
    - The integer accumulators [lat] and [lng] of the decoder are held as
      exact integers.  JavaScript holds them in doubles, which are exact
      below 2^53 in magnitude, that is for every string of fewer than 2^22
      deltas.
    - A finite coordinate is a rational number ([Q]); [lat / 1e5] is the
      exact quotient, of which the double computed by JavaScript is the
      nearest representable value. *)

From Stdlib Require Import ZArith QArith Qminmax Qround Lia List Sorted Floats Uint63.
From stdpp Require Import base option list strings gmap.

#[local] Set Warnings "-inexact-float".

Open Scope Z_scope.

(** ** JavaScript numbers restricted to what the sources compute with *)

Module JS.

(** ToInt32 on an integer value. *)
Definition toInt32 (z : Z) : Z := (z + 2 ^ 31) mod 2 ^ 32 - 2 ^ 31.

(** [a & b]. *)
Definition bitAnd (a b : Z) : Z := toInt32 (Z.land (toInt32 a) (toInt32 b)).

(** [a | b]. *)
Definition bitOr (a b : Z) : Z := toInt32 (Z.lor (toInt32 a) (toInt32 b)).

(** [a << n]: the count is masked to five bits, the result wraps to 32 bits. *)
Definition shiftLeft (a n : Z) : Z := toInt32 (Z.shiftl (toInt32 a) (n mod 32)).

(** [a >> n]: sign-propagating. *)
Definition shiftRight (a n : Z) : Z := Z.shiftr (toInt32 a) (n mod 32).

(** [~a]. *)
Definition bitNot (a : Z) : Z := toInt32 (Z.lnot (toInt32 a)).

(** A number that may be NaN: the result of [charCodeAt] and what is
    computed from it. *)
Definition num := option Z.

(** [s.charCodeAt(i)]: NaN when [i] is not an index of [s]. *)
Definition charCodeAt (s : list N) (i : nat) : num := Z.of_N <$> s !! i.

(** [x - k]: NaN stays NaN. *)
Definition minus (x : num) (k : Z) : num := (fun c => c - k) <$> x.

(** ToInt32 of a number that may be NaN: NaN converts to 0. *)
Definition numToInt32 (x : num) : Z :=
  match x with Some z => toInt32 z | None => 0 end.

(** [x >= k]: false when [x] is NaN. *)
Definition geq (x : num) (k : Z) : bool :=
  match x with Some z => k <=? z | None => false end.

(** What running a function body can end in. *)
Inductive Error : Type := MalformedGeometry | OtherError.

Inductive Completion (A : Type) : Type :=
| Returns (value : A)
| Throws (e : Error).

Arguments Returns {A} value.
Arguments Throws {A} e.

End JS.

(** The code units of a literal whose characters are all ASCII. *)
Definition codeUnits (s : string) : list N :=
  List.map Ascii.N_of_ascii (String.list_ascii_of_string s).

(** ** utils: decodePolyline *)

Module Polyline.

Import JS.

Definition Coordinate : Type := Q * Q.

(** The inner [do { ... } while (byte >= 0x20)] loop, entered with the
    values of [index], [shift] and [result]; [reads] logs every index
    handed to [charCodeAt].  [None] only when [fuel] runs out. *)
Fixpoint readDelta (fuel : nat) (encoded : list N)
    (index : nat) (shift result : Z) (reads : list nat)
    : option (nat * Z * list nat) :=
  match fuel with
  | O => None
  | S fuel' =>
      let byte := minus (charCodeAt encoded index) 63 in
      let reads := reads ++ [index] in
      let index := S index in
      let result := bitOr result (shiftLeft (bitAnd (numToInt32 byte) 31) shift) in
      let shift := shift + 5 in
      if geq byte 32 then readDelta fuel' encoded index shift result reads
      else Some (index, result, reads)
  end.

(** [(result & 1) !== 0 ? ~(result >> 1) : result >> 1]. *)
Definition signedDelta (result : Z) : Z :=
  if negb (bitAnd result 1 =? 0) then bitNot (shiftRight result 1)
  else shiftRight result 1.

Record DecoderState : Type := mkState {
  index : nat;
  lat : Z;
  lng : Z;
  points : list Coordinate;
  reads : list nat
}.

Definition initialState : DecoderState :=
  {| index := 0; lat := 0; lng := 0; points := []; reads := [] |}.

(** [lat / 1e5]. *)
Definition divE5 (n : Z) : Q := n # 100000.

(** One pass through the body of [while (index < encoded.length)]. *)
Definition decodeStep (innerFuel : nat) (encoded : list N) (st : DecoderState)
    : option DecoderState :=
  '(index1, result1, reads1) ← readDelta innerFuel encoded (index st) 0 0 (reads st);
  let lat' := lat st + signedDelta result1 in
  '(index2, result2, reads2) ← readDelta innerFuel encoded index1 0 0 reads1;
  let lng' := lng st + signedDelta result2 in
  Some {| index := index2; lat := lat'; lng := lng';
          points := points st ++ [(divE5 lat', divE5 lng')];
          reads := reads2 |}.

(** The outer loop. *)
Fixpoint decodeLoop (fuel innerFuel : nat) (encoded : list N) (st : DecoderState)
    : option DecoderState :=
  match fuel with
  | O => None
  | S fuel' =>
      if (index st <? length encoded)%nat then
        st' ← decodeStep innerFuel encoded st;
        decodeLoop fuel' innerFuel encoded st'
      else Some st
  end.

(** The whole function from its initial state; the loops get one unit of
    fuel more than there are characters. *)
Definition decodeRun (encoded : list N) : option DecoderState :=
  decodeLoop (S (length encoded)) (S (length encoded)) encoded initialState.

(** [decodePolyline(encoded)].  The body has no [throw] and calls nothing
    that throws on a string, so every completed run returns its [points]. *)
Definition decodePolyline (encoded : list N) : option (Completion (list Coordinate)) :=
  st ← decodeRun encoded; Some (Returns (points st)).

(** Coordinates that denote the same pair of numbers. *)
Definition coordEq (p q : Coordinate) : Prop :=
  (fst p == fst q)%Q /\ (snd p == snd q)%Q.

(** The final character carries the continuation bit: its byte is at
    least 0x20. *)
Definition endsMidDelta (encoded : list N) : bool :=
  match last encoded with
  | Some c => 32 <=? Z.of_N c - 63
  | None => false
  end.

(** The double that JavaScript computes for [n / 1e5] when [n] is an
    integer below 2^53 in magnitude. *)
Definition doubleOfZ (z : Z) : float :=
  if z <? 0 then PrimFloat.opp (PrimFloat.of_uint63 (Uint63.of_Z (- z)))
  else PrimFloat.of_uint63 (Uint63.of_Z z).

Definition asDouble (q : Q) : float :=
  PrimFloat.div (doubleOfZ (Qnum q)) (doubleOfZ (Z.pos (Qden q))).

(** The reference encoding of the polyline algorithm's documentation. *)
Definition referencePolyline : list N := codeUnits "_p~iF~ps|U_ulLnnqC_mqNvxq`@".

End Polyline.

(** ** The decoding algorithm as section 4.1 of the specification words it *)

Module PolylineSpec.

Import JS.

(** No bounds on the integers here, and a cursor overrun or a negative byte
    is a decode fault ([None]). *)

(** Step 2: one value, five bits per character, read off the front of the
    remaining characters. *)
Fixpoint readValue (chars : list N) (shift result : Z) : option (Z * list N) :=
  match chars with
  | [] => None
  | c :: rest =>
      let byte := Z.of_N c - 63 in
      if byte <? 0 then None
      else
        let result := Z.lor result (Z.shiftl (Z.land byte 31) shift) in
        if 32 <=? byte then readValue rest (shift + 5) result
        else Some (result, rest)
  end.

(** Step 3: the signed delta of an accumulated unsigned value. *)
Definition signedOf (result : Z) : Z :=
  if Z.testbit result 0 then Z.lnot (Z.shiftr result 1) else Z.shiftr result 1.

(** Steps 4 to 6, until the cursor reaches the end of the string. *)
Fixpoint decodeFrom (fuel : nat) (chars : list N) (lat lng : Z)
    : option (list Polyline.Coordinate) :=
  match chars with
  | [] => Some []
  | _ :: _ =>
      match fuel with
      | O => None
      | S fuel' =>
          '(r1, rest1) ← readValue chars 0 0;
          let lat := lat + signedOf r1 in
          '(r2, rest2) ← readValue rest1 0 0;
          let lng := lng + signedOf r2 in
          pts ← decodeFrom fuel' rest2 lat lng;
          Some ((Polyline.divE5 lat, Polyline.divE5 lng) :: pts)
      end
  end.

Definition decode (chars : list N) : option (list Polyline.Coordinate) :=
  decodeFrom (length chars) chars 0 0.

(** A well-formed encoded string: printable characters from '?' (63) to
    '~' (126), an even number of values, each of at most six characters
    (thirty bits), the last of which ends on a terminating character.
    [inLng] tells whether a latitude value has been read and its longitude
    is due; [count] is the number of characters of the current value read
    so far. *)
Fixpoint wellFormedFrom (chars : list N) (inLng : bool) (count : nat) : bool :=
  match chars with
  | [] => negb inLng && (count =? 0)%nat
  | c :: rest =>
      (63 <=? c)%N && (c <=? 126)%N && (count <? 6)%nat &&
      (if (95 <=? c)%N then wellFormedFrom rest inLng (S count)
       else wellFormedFrom rest (negb inLng) 0)
  end.

Definition wellFormed (chars : list N) : bool := wellFormedFrom chars false 0.

End PolylineSpec.

(** ** The matching encoder *)

Module Encoder.

(** Modelled from the spec: the encoder lives in the backend, not in this
    repository; section 6 names it as the well-known polyline algorithm at
    precision 1e5, of which section 4.1 describes the decoding direction.
    A value is written low five bits first, every character but the last
    of a value carrying the continuation bit 0x20, each offset by 63. *)
Fixpoint encodeUnsigned (fuel : nat) (v : Z) : list N :=
  match fuel with
  | O => []
  | S fuel' =>
      if 32 <=? v then
        Z.to_N (Z.lor 32 (Z.land v 31) + 63) :: encodeUnsigned fuel' (Z.shiftr v 5)
      else [Z.to_N (v + 63)]
  end.

(** Modelled from the spec: the inverse of step 3 of section 4.1: a delta
    is doubled and, when negative, complemented. *)
Definition unsignedOf (delta : Z) : Z :=
  if delta <? 0 then Z.lnot (Z.shiftl delta 1) else Z.shiftl delta 1.

(** Modelled from the spec: one delta, as its unsigned value written out. *)
Definition encodeValue (delta : Z) : list N :=
  let v := unsignedOf delta in
  encodeUnsigned (S (Z.to_nat (Z.log2 v))) v.

(** Modelled from the spec: a coordinate rounded to five decimal places,
    scaled by 1e5 and rounded to the nearest integer. *)
Definition toE5 (q : Q) : Z := Qfloor (q * 100000 + (1 # 2))%Q.

(** Modelled from the spec: deltas are taken against the previous point,
    the first one against (0, 0); latitude first. *)
Fixpoint encodeFrom (pts : list Polyline.Coordinate) (prevLat prevLng : Z) : list N :=
  match pts with
  | [] => []
  | (la, lo) :: rest =>
      let lat := toE5 la in
      let lng := toE5 lo in
      encodeValue (lat - prevLat) ++ encodeValue (lng - prevLng)
        ++ encodeFrom rest lat lng
  end.

(** Modelled from the spec: the encoding of a sequence of coordinates. *)
Definition encode (pts : list Polyline.Coordinate) : list N := encodeFrom pts 0 0.

(** A number rounded to five decimal places: a multiple of 1e-5. *)
Definition rounded5 (q : Q) : bool :=
  Qeq_bool (q * 100000) (inject_Z (Qfloor (q * 100000))).

(** A coordinate of the data model, rounded to five decimal places:
    latitude in [-90, 90], longitude in [-180, 180]. *)
Definition validCoordinate (p : Polyline.Coordinate) : bool :=
  rounded5 (fst p) && rounded5 (snd p)
  && Qle_bool (-90) (fst p) && Qle_bool (fst p) 90
  && Qle_bool (-180) (snd p) && Qle_bool (snd p) 180.

(** A coordinate as it comes back from its scaled integers. *)
Definition e5point (p : Polyline.Coordinate) : Polyline.Coordinate :=
  (Polyline.divE5 (toE5 (fst p)), Polyline.divE5 (toE5 (snd p))).

End Encoder.

(** ** utils: the stop-type colour table, and RouteMap's stopIcon *)

Module Markers.

(** What a property read on an object literal can give: nothing, one of the
    strings the literal holds, or the function or object that every object
    inherits from Object.prototype under that name. *)
Inductive Value : Type :=
| Undefined
| Str (s : string)
| Inherited (name : string).

(** The property names of Object.prototype. *)
Definition objectPrototype : list string :=
  ["constructor"; "hasOwnProperty"; "isPrototypeOf"; "propertyIsEnumerable";
   "toLocaleString"; "toString"; "valueOf"; "__proto__";
   "__defineGetter__"; "__defineSetter__"; "__lookupGetter__"; "__lookupSetter__"].

(** [obj[key]] where [obj] is an object literal with the own properties
    [own]: own properties first, then the prototype. *)
Definition getProperty (own : gmap string string) (key : string) : Value :=
  match own !! key with
  | Some s => Str s
  | None => if bool_decide (key ∈ objectPrototype) then Inherited key else Undefined
  end.

Definition truthy (v : Value) : bool :=
  match v with
  | Undefined => false
  | Str s => negb (String.eqb s EmptyString)
  | Inherited _ => true
  end.

(** [v || d]. *)
Definition orElse (v : Value) (d : string) : Value :=
  if truthy v then v else Str d.

(** The table of [getStopTypeColor]. *)
Definition colors : gmap string string :=
  {[ "PICKUP" := "#2196f3"; "DROPOFF" := "#4caf50"; "FUEL" := "#ff9800";
     "REST_BREAK" := "#9c27b0"; "OFF_DUTY" := "#607d8b" ]}.

(** [getStopTypeColor(type)]: [colors[type] || '#000000']. *)
Definition getStopTypeColor (type : string) : JS.Completion Value :=
  JS.Returns (orElse (getProperty colors type) "#000000").

(** The table of [stopIcon]. *)
Definition labels : gmap string string :=
  {[ "FUEL" := "⛽"; "REST_BREAK" := "☕"; "OFF_DUTY" := "🛏️" ]}.

(** What [createCustomIcon(color, label)] builds: Leaflet's divIcon over an
    HTML template that interpolates both arguments. *)
Record Icon : Type := mkIcon { iconColor : Value; iconLabel : Value }.

Definition createCustomIcon (color label : Value) : JS.Completion Icon :=
  JS.Returns {| iconColor := color; iconLabel := label |}.

(** [stopIcon(type)]:
    [createCustomIcon(getStopTypeColor(type), labels[type] || '•')]. *)
Definition stopIcon (type : string) : JS.Completion Icon :=
  match getStopTypeColor type with
  | JS.Returns color => createCustomIcon color (orElse (getProperty labels type) "•")
  | JS.Throws e => JS.Throws e
  end.

Definition recognized : list string :=
  ["PICKUP"; "DROPOFF"; "FUEL"; "REST_BREAK"; "OFF_DUTY"].

End Markers.

(** ** RouteMap: route coordinates, bounds and the stop markers *)

Module RouteMap.

Import JS.

Record Waypoint : Type := mkWaypoint {
  name : string;
  lat : Q;
  lng : Q;
  type : string
}.

(** The fields of a route that RouteMap reads; [polyline] is [None] for null
    or undefined. *)
Record Route : Type := mkRoute {
  polyline : option (list N);
  waypoints : list Waypoint
}.

(** The latitude and longitude are [number | null]. *)
Record Stop : Type := mkStop {
  stopType : string;
  durationMinutes : Q;
  location : string;
  stopLat : option Q;
  stopLng : option Q;
  mileMarker : option Q;
  reason : string
}.

(** Truthiness of a [number | null]: null and 0 are falsy. *)
Definition truthyNumber (x : option Q) : bool :=
  match x with
  | Some q => negb (Qeq_bool q 0)
  | None => false
  end.

(** [!s] for a string that may be absent. *)
Definition falsyString (s : option (list N)) : bool :=
  match s with
  | None => true
  | Some [] => true
  | Some (_ :: _) => false
  end.

(** [list.includes(s)]. *)
Definition includes (l : list string) (s : string) : bool :=
  existsb (String.eqb s) l.

(** The predicate of [stops.filter(...)]:
    [stop.lat && stop.lng && !['PICKUP', 'DROPOFF'].includes(stop.type)]. *)
Definition stopOnMap (stop : Stop) : bool :=
  truthyNumber (stopLat stop) && truthyNumber (stopLng stop)
  && negb (includes ["PICKUP"; "DROPOFF"] (stopType stop)).

(** The stops that get a marker (the specification's classifyStopsForMap). *)
Definition classifyStopsForMap (stops : list Stop) : list Stop :=
  List.filter stopOnMap stops.

(** The [routeCoordinates] memo:
    [if (!route.polyline) return []; return decodePolyline(route.polyline)]. *)
Definition routeCoordinates (route : Route)
    : option (Completion (list Polyline.Coordinate)) :=
  if falsyString (polyline route) then Some (Returns [])
  else Polyline.decodePolyline (default [] (polyline route)).

Record LatLngBounds : Type := mkBounds {
  southWest : Q * Q;
  northEast : Q * Q
}.

(** Modelled from the spec: Leaflet's [extend] is outside the repository;
    section 4.2 gives its result as the minimum and maximum of each axis
    independently.  A bounds object without corners ([None]) takes the point
    as both corners. *)
Definition extend (b : option LatLngBounds) (p : Q * Q) : option LatLngBounds :=
  match b with
  | None => Some {| southWest := p; northEast := p |}
  | Some b =>
      Some {| southWest := (Qmin (fst p) (fst (southWest b)),
                            Qmin (snd p) (snd (southWest b)));
              northEast := (Qmax (fst p) (fst (northEast b)),
                            Qmax (snd p) (snd (northEast b))) |}
  end.

(** Modelled from the spec: Leaflet's [L.latLngBounds(points)], which
    extends an empty bounds object by every point in turn. *)
Definition latLngBounds (pts : list (Q * Q)) : option LatLngBounds :=
  fold_left extend pts None.

(** [[...routeCoordinates, ...route.waypoints.map((w) => [w.lat, w.lng])]]. *)
Definition allPoints (coords : list Polyline.Coordinate) (ws : list Waypoint)
    : list (Q * Q) :=
  coords ++ List.map (fun w => (lat w, lng w)) ws.

Definition defaultCorners : list (Q * Q) := [(25, -125); (49, -66)]%Q.

(** The [bounds] memo. *)
Definition bounds (coords : list Polyline.Coordinate) (ws : list Waypoint)
    : option LatLngBounds :=
  if (length (allPoints coords ws) =? 0)%nat then latLngBounds defaultCorners
  else latLngBounds (allPoints coords ws).

(** The bounds the component computes for a route, through both memos. *)
Definition routeBounds (route : Route) : option (Completion (option LatLngBounds)) :=
  c ← routeCoordinates route;
  match c with
  | Returns coords => Some (Returns (bounds coords (waypoints route)))
  | Throws e => Some (Throws e)
  end.

(** The fixed continental region. *)
Definition defaultRegion : LatLngBounds :=
  {| southWest := (25, -125)%Q; northEast := (49, -66)%Q |}.

(** [b] contains the point [p]. *)
Definition contains (b : LatLngBounds) (p : Q * Q) : Prop :=
  (fst (southWest b) <= fst p <= fst (northEast b))%Q
  /\ (snd (southWest b) <= snd p <= snd (northEast b))%Q.

(** Every side of [b] passes through a point of [pts]: no smaller rectangle
    contains them all. *)
Definition tight (b : LatLngBounds) (pts : list (Q * Q)) : Prop :=
  Exists (fun p => fst p == fst (southWest b))%Q pts
  /\ Exists (fun p => snd p == snd (southWest b))%Q pts
  /\ Exists (fun p => fst p == fst (northEast b))%Q pts
  /\ Exists (fun p => snd p == snd (northEast b))%Q pts.

(** The three conditions of the specification's stop filter. *)
Definition eligible (stop : Stop) : Prop :=
  stopLat stop <> None /\ stopLng stop <> None
  /\ stopType stop <> "PICKUP" /\ stopType stop <> "DROPOFF".

End RouteMap.

(** ** TripForm: the hours text field *)

Module TripForm.

(** A JavaScript number as [parseFloat] can return it. *)
Inductive Number : Type :=
| NaN
| NegInfinity
| PosInfinity
| Finite (q : Q).

(** [v || 0]: NaN and 0 are falsy. *)
Definition orZero (v : Number) : Number :=
  match v with
  | NaN => Finite 0
  | Finite q => if Qeq_bool q 0 then Finite 0 else Finite q
  | other => other
  end.

(** [Math.max(a, b)]. *)
Definition mathMax (a b : Number) : Number :=
  match a, b with
  | NaN, _ | _, NaN => NaN
  | PosInfinity, _ | _, PosInfinity => PosInfinity
  | NegInfinity, x | x, NegInfinity => x
  | Finite x, Finite y => Finite (Qmax x y)
  end.

(** [Math.min(a, b)]. *)
Definition mathMin (a b : Number) : Number :=
  match a, b with
  | NaN, _ | _, NaN => NaN
  | NegInfinity, _ | _, NegInfinity => NegInfinity
  | PosInfinity, x | x, PosInfinity => x
  | Finite x, Finite y => Finite (Qmin x y)
  end.

Record LocationInput : Type := mkLocation {
  locLat : option Q;
  locLng : option Q;
  address : string
}.

Record TripFormData : Type := mkForm {
  currentLocation : LocationInput;
  pickupLocation : LocationInput;
  dropoffLocation : LocationInput;
  cycleUsedHours : Number
}.

Section Handler.

(** The built-in [parseFloat], whatever it returns for a string. *)
Variable parseFloat : string -> Number.

(** [handleCycleHoursChange]: the state update for an event whose
    [target.value] is [text]. *)
Definition handleCycleHoursChange (text : string) (prev : TripFormData)
    : TripFormData :=
  let value := orZero (parseFloat text) in
  {| currentLocation := currentLocation prev;
     pickupLocation := pickupLocation prev;
     dropoffLocation := dropoffLocation prev;
     cycleUsedHours := mathMin (Finite 70) (mathMax (Finite 0) value) |}.

End Handler.

(** A number within [lo, hi]. *)
Definition within (lo hi : Q) (v : Number) : Prop :=
  exists q, v = Finite q /\ (lo <= q <= hi)%Q.

End TripForm.

(** ** services/api: the response error interceptor *)

Module Api.

(** The body of an error response; the API sends its messages as strings,
    and a field may be missing. *)
Record ResponseData : Type := mkData {
  error : option string;
  detail : option string
}.

Record Response : Type := mkResponse {
  data : option ResponseData;
  status : Z
}.

(** The error axios hands to the interceptor; no [response] on a network
    failure. *)
Record AxiosError : Type := mkAxiosError {
  errorMessage : string;
  response : option Response
}.

(** The [Error] the interceptor builds. *)
Record ApiError : Type := mkApiError {
  message : string;
  isApiError : bool;
  apiStatus : Z
}.

(** What the returned promise is rejected with. *)
Inductive Rejection : Type :=
| RejectApi (e : ApiError)
| RejectOriginal (e : AxiosError).

(** [error.response?.data?.f]. *)
Definition dataField (f : ResponseData -> option string) (e : AxiosError)
    : option string :=
  r ← response e; d ← data r; f d.

(** Truthiness of a string that may be undefined. *)
Definition truthyString (v : option string) : bool :=
  match v with
  | Some s => negb (String.eqb s EmptyString)
  | None => false
  end.

Definition statusOf (e : AxiosError) : Z :=
  match response e with Some r => status r | None => 0 end.

(** The rejection handler passed to [interceptors.response.use].  Inside
    either branch the guard has established that the response and the field
    exist, so the defaults of [statusOf] and [default] are never used. *)
Definition onRejected (e : AxiosError) : Rejection :=
  if truthyString (dataField error e) then
    RejectApi {| message := default EmptyString (dataField error e);
                 isApiError := true; apiStatus := statusOf e |}
  else if truthyString (dataField detail e) then
    RejectApi {| message := default EmptyString (dataField detail e);
                 isApiError := true; apiStatus := statusOf e |}
  else RejectOriginal e.

End Api.

(** ** utils: the other lookup tables *)

Module Labels.

Import Markers.

(** The table of [getDutyStatusName]. *)
Definition dutyNames : gmap string string :=
  {[ "OFF_DUTY" := "Off Duty"; "SLEEPER_BERTH" := "Sleeper Berth";
     "DRIVING" := "Driving"; "ON_DUTY_NOT_DRIVING" := "On Duty (Not Driving)" ]}.

(** [getDutyStatusName(status)]: [names[status] || status]. *)
Definition getDutyStatusName (status : string) : Value :=
  orElse (getProperty dutyNames status) status.

(** The table of [getDutyStatusColor]. *)
Definition dutyColors : gmap string string :=
  {[ "OFF_DUTY" := "#6c757d"; "SLEEPER_BERTH" := "#17a2b8";
     "DRIVING" := "#28a745"; "ON_DUTY_NOT_DRIVING" := "#ffc107" ]}.

(** [getDutyStatusColor(status)]: [colors[status] || '#000000']. *)
Definition getDutyStatusColor (status : string) : Value :=
  orElse (getProperty dutyColors status) "#000000".

(** The table of [getStopTypeName]. *)
Definition stopNames : gmap string string :=
  {[ "PICKUP" := "Pickup"; "DROPOFF" := "Dropoff"; "FUEL" := "Fuel Stop";
     "REST_BREAK" := "Rest Break"; "OFF_DUTY" := "Off Duty" ]}.

(** [getStopTypeName(type)]: [names[type] || type]. *)
Definition getStopTypeName (type : string) : Value :=
  orElse (getProperty stopNames type) type.

Definition dutyStatuses : list string :=
  ["OFF_DUTY"; "SLEEPER_BERTH"; "DRIVING"; "ON_DUTY_NOT_DRIVING"].

End Labels.

(** ** RouteMap: the initial centre of the map *)

Module MapCenter.

Import RouteMap.

(** The [center] memo: the first waypoint, or the centre of the US. *)
Definition center (ws : list Waypoint) : Q * Q :=
  match ws with
  | w :: _ => (lat w, lng w)
  | [] => (39.8283, -98.5795)%Q
  end.

End MapCenter.

(** ** TripForm: the wizard *)

Module Wizard.

Import TripForm.

(** The bytes of a string.  A string holds the UTF-8 encoding of its
    text, as the string literals of this file do, so a character above
    U+007F takes two or three bytes. *)
Definition utf8 (s : string) : list N :=
  List.map Ascii.N_of_ascii (String.list_ascii_of_string s).

(** The characters that [String.prototype.trim] removes, each as the bytes
    of its UTF-8 encoding: the white space and the line terminators of
    ECMAScript, which are U+0009 to U+000D, U+0020, U+00A0, U+1680, U+2000
    to U+200A, U+2028, U+2029, U+202F, U+205F, U+3000 and U+FEFF. *)
Definition whiteSpace : list (list N) :=
  [[9]; [10]; [11]; [12]; [13]; [32];
   [194; 160];
   [225; 154; 128];
   [226; 128; 128]; [226; 128; 129]; [226; 128; 130]; [226; 128; 131];
   [226; 128; 132]; [226; 128; 133]; [226; 128; 134]; [226; 128; 135];
   [226; 128; 136]; [226; 128; 137]; [226; 128; 138];
   [226; 128; 168]; [226; 128; 169]; [226; 128; 175];
   [226; 129; 159];
   [227; 128; 128];
   [239; 187; 191]]%N.

(** [l] without the prefix [p], when it starts with it. *)
Fixpoint stripPrefix (p l : list N) : option (list N) :=
  match p, l with
  | [], _ => Some l
  | a :: p', b :: l' => if (a =? b)%N then stripPrefix p' l' else None
  | _ :: _, [] => None
  end.

(** [l] without its first character, when that is one of [chars]. *)
Fixpoint dropFirst (chars : list (list N)) (l : list N) : option (list N) :=
  match chars with
  | [] => None
  | w :: others =>
      match stripPrefix w l with
      | Some rest => Some rest
      | None => dropFirst others l
      end
  end.

(** [l] without its leading characters among [chars]; every round removes
    a byte at least, so that [length l] rounds are enough. *)
Fixpoint trimStartBy (chars : list (list N)) (fuel : nat) (l : list N) : list N :=
  match fuel with
  | O => l
  | S fuel' =>
      match dropFirst chars l with
      | Some rest => trimStartBy chars fuel' rest
      | None => l
      end
  end.

Definition trimStart (l : list N) : list N :=
  trimStartBy whiteSpace (length l) l.

(** The same from the end: the reversed bytes lose their leading reversed
    white space. *)
Definition trimEnd (l : list N) : list N :=
  List.rev (trimStartBy (List.map (@List.rev N) whiteSpace) (length l) (List.rev l)).

(** [s.trim()]. *)
Definition trim (l : list N) : list N := trimEnd (trimStart l).

(** A sequence of characters of [chars] and nothing else. *)
Inductive blankBy (chars : list (list N)) : list N -> Prop :=
| blank_nil : blankBy chars []
| blank_cons (w rest : list N) :
    In w chars -> blankBy chars rest -> blankBy chars (w ++ rest).

(** A text of white space only. *)
Definition blank (l : list N) : Prop := blankBy whiteSpace l.

(** [isValidLocation(loc)]: coordinates that are both not null, or an
    address that is not blank.  A missing address behaves as the empty
    one.  The latitude and the longitude are each a number or null, as in
    every location that the form holds. *)
Definition isValidLocation (loc : LocationInput) : bool :=
  let hasCoords :=
    negb (bool_decide (locLat loc = None)) && negb (bool_decide (locLng loc = None)) in
  let hasAddress :=
    match trim (utf8 (address loc)) with
    | [] => false
    | _ :: _ => true
    end in
  hasCoords || hasAddress.

(** [a < b] on numbers: false when either is NaN. *)
Definition lessThan (a b : Number) : bool :=
  match a, b with
  | NaN, _ | _, NaN => false
  | NegInfinity, NegInfinity => false
  | NegInfinity, _ => true
  | _, NegInfinity => false
  | PosInfinity, _ => false
  | _, PosInfinity => true
  | Finite x, Finite y => negb (Qle_bool y x)
  end.

(** [70 - h]. *)
Definition cycleRemaining (h : Number) : Number :=
  match h with
  | NaN => NaN
  | NegInfinity => PosInfinity
  | PosInfinity => NegInfinity
  | Finite q => Finite (70 - q)
  end.

(** The colour of the remaining-hours badge:
    [cycleRemaining < 10 ? '#ef4444' : 'rgb(0, 128, 128)']. *)
Definition remainingColor (h : Number) : string :=
  if lessThan (cycleRemaining h) (Finite 10) then "#ef4444" else "rgb(0, 128, 128)".

(** The state of the component: [formData], [validationError]
    ([None] for null) and [currentStep].  [isTransitioning] only disables
    the Continue and submit buttons for half a second after a step change;
    leaving it out admits more sequences of events, not fewer. *)
Record State : Type := mkWizard {
  formData : TripFormData;
  validationError : option string;
  currentStep : Z
}.

Definition defaultFormData : TripFormData :=
  {| currentLocation := mkLocation None None EmptyString;
     pickupLocation := mkLocation None None EmptyString;
     dropoffLocation := mkLocation None None EmptyString;
     cycleUsedHours := Finite 0 |}.

Definition initial : State :=
  {| formData := defaultFormData; validationError := None; currentStep := 1 |}.

Definition setValidationError (e : option string) (st : State) : State :=
  {| formData := formData st; validationError := e; currentStep := currentStep st |}.

Definition setFormData (f : TripFormData) (st : State) : State :=
  {| formData := f; validationError := validationError st; currentStep := currentStep st |}.

Definition setCurrentStep (n : Z) (st : State) : State :=
  {| formData := formData st; validationError := validationError st; currentStep := n |}.

(** [validateStep(step)]: its result and the state after its
    [setValidationError]. *)
Definition validateStep (step : Z) (st : State) : bool * State :=
  let fd := formData st in
  if step =? 1 then
    if negb (isValidLocation (currentLocation fd)) then
      (false, setValidationError (Some "Please enter your current location") st)
    else (true, setValidationError None st)
  else if step =? 2 then
    if negb (isValidLocation (pickupLocation fd)) then
      (false, setValidationError (Some "Please enter the pickup location") st)
    else (true, setValidationError None st)
  else if step =? 3 then
    if negb (isValidLocation (dropoffLocation fd)) then
      (false, setValidationError (Some "Please enter the dropoff location") st)
    else (true, setValidationError None st)
  else if step =? 4 then
    if lessThan (cycleUsedHours fd) (Finite 0) || lessThan (Finite 70) (cycleUsedHours fd) then
      (false, setValidationError (Some "Please enter valid cycle hours (0-70)") st)
    else (true, setValidationError None st)
  else (true, setValidationError None st).

(** [handleNext]. *)
Definition handleNext (st : State) : State :=
  let '(ok, st') := validateStep (currentStep st) st in
  if ok then setCurrentStep (Z.min (currentStep st' + 1) 4) st' else st'.

(** [handlePrevious]. *)
Definition handlePrevious (st : State) : State :=
  setValidationError None (setCurrentStep (Z.max (currentStep st - 1) 1) st).

(** [handleSubmit]: the state after it, and the data handed to [onSubmit]
    if it is called. *)
Definition handleSubmit (st : State) : State * option TripFormData :=
  if currentStep st <? 4 then (handleNext st, None)
  else
    let '(ok, st') := validateStep (currentStep st) st in
    (st', if ok then Some (formData st) else None).

Inductive Field : Type := CurrentLocation | PickupLocation | DropoffLocation.

(** [handleLocationChange(field)(value)]. *)
Definition handleLocationChange (field : Field) (value : LocationInput) (st : State)
    : State :=
  let fd := formData st in
  let fd' :=
    match field with
    | CurrentLocation =>
        {| currentLocation := value; pickupLocation := pickupLocation fd;
           dropoffLocation := dropoffLocation fd; cycleUsedHours := cycleUsedHours fd |}
    | PickupLocation =>
        {| currentLocation := currentLocation fd; pickupLocation := value;
           dropoffLocation := dropoffLocation fd; cycleUsedHours := cycleUsedHours fd |}
    | DropoffLocation =>
        {| currentLocation := currentLocation fd; pickupLocation := pickupLocation fd;
           dropoffLocation := value; cycleUsedHours := cycleUsedHours fd |}
    end in
  setValidationError None (setFormData fd' st).

(** [handleSliderChange(_, value)]: the value is stored as it comes. *)
Definition handleSliderChange (value : Number) (st : State) : State :=
  let fd := formData st in
  setFormData {| currentLocation := currentLocation fd; pickupLocation := pickupLocation fd;
                 dropoffLocation := dropoffLocation fd; cycleUsedHours := value |} st.

(** What the rendered form lets the user do.  [renderStepContent] shows
    the location field of steps 1 to 3 and the slider and the hours field
    of step 4; Back is disabled on step 1; Continue is rendered below step
    4 and the submit button on step 4; the form can be submitted from the
    keyboard on any step. *)
Inductive Event : Type :=
| LocationEdited (value : LocationInput)
| HoursTyped (text : string)
| SliderMoved (value : Number)
| ContinueClicked
| BackClicked
| FormSubmitted.

(** The location field that [renderStepContent] shows. *)
Definition renderedField (step : Z) : option Field :=
  if step =? 1 then Some CurrentLocation
  else if step =? 2 then Some PickupLocation
  else if step =? 3 then Some DropoffLocation
  else None.

Section Dispatch.

Variable parseFloat : string -> Number.

(** The handler an event reaches, if the element is rendered and enabled;
    with the data handed to [onSubmit], if any. *)
Definition dispatch (ev : Event) (st : State) : State * option TripFormData :=
  match ev with
  | LocationEdited value =>
      match renderedField (currentStep st) with
      | Some field => (handleLocationChange field value st, None)
      | None => (st, None)
      end
  | HoursTyped text =>
      if currentStep st =? 4 then
        (setFormData (handleCycleHoursChange parseFloat text (formData st)) st, None)
      else (st, None)
  | SliderMoved value =>
      if currentStep st =? 4 then (handleSliderChange value st, None) else (st, None)
  | ContinueClicked =>
      if currentStep st <? 4 then (handleNext st, None) else (st, None)
  | BackClicked =>
      if currentStep st =? 1 then (st, None) else (handlePrevious st, None)
  | FormSubmitted => handleSubmit st
  end.

(** The state after a sequence of events, from the initial render. *)
Definition run (events : list Event) : State :=
  fold_left (fun st ev => fst (dispatch ev st)) events initial.

End Dispatch.

(** The slider, rendered with [min={0}] and [max={70}], reports a value
    within these. *)
Definition sliderWithinRange (ev : Event) : Prop :=
  match ev with
  | SliderMoved value => within 0 70 value
  | _ => True
  end.

(** The locations of the steps before [currentStep] are valid. *)
Definition earlierStepsValid (st : State) : Prop :=
  1 <= currentStep st <= 4
  /\ (1 < currentStep st -> isValidLocation (currentLocation (formData st)) = true)
  /\ (2 < currentStep st -> isValidLocation (pickupLocation (formData st)) = true)
  /\ (3 < currentStep st -> isValidLocation (dropoffLocation (formData st)) = true).

End Wizard.

(** ** App: submitting the form *)

Module App.

(** [s.includes(sub)]. *)
Fixpoint includes (s sub : string) : bool :=
  String.prefix sub s
  || match s with
     | EmptyString => false
     | String _ rest => includes rest sub
     end.

(** What the [catch] clause reads of the value it catches. *)
Record Thrown : Type := mkThrown {
  code : option string;
  thrownMessage : string;
  thrownIsApiError : bool
}.

Definition timeoutText : string :=
  "The request took too long to complete. Please try again.".

(** A line feed. *)
Definition nl : string := String (Ascii.ascii_of_nat 10) EmptyString.

Definition routeText : string :=
  "Unable to calculate a driving route between these locations. "
  +:+ "This may happen if:" +:+ nl
  +:+ "• One or more locations are too remote or inaccessible by road" +:+ nl
  +:+ "• Locations are in areas without road connections (e.g., remote Alaska, islands)" +:+ nl
  +:+ "• The addresses could not be found" +:+ nl +:+ nl
  +:+ "Please verify your locations and try again with accessible road addresses.".

Definition genericText : string :=
  "An error occurred while planning your trip. Please try again.".

(** The message that the [catch] clause passes to [setError]. *)
Definition errorText (err : Thrown) : string :=
  if bool_decide (code err = Some "ECONNABORTED") then timeoutText
  else if includes (thrownMessage err) "Unable to calculate route" then routeText
  else if thrownIsApiError err then thrownMessage err
  else if negb (String.eqb (thrownMessage err) EmptyString) then thrownMessage err
  else genericText.

(** What [planTrip] rejects with, as the [catch] clause sees it: the Error
    built by the interceptor carries no [code]; the original axios error
    keeps its own, given here as [axiosCode]. *)
Definition asThrown (axiosCode : option string) (r : Api.Rejection) : Thrown :=
  match r with
  | Api.RejectApi e =>
      {| code := None; thrownMessage := Api.message e;
         thrownIsApiError := Api.isApiError e |}
  | Api.RejectOriginal e =>
      {| code := axiosCode; thrownMessage := Api.errorMessage e;
         thrownIsApiError := false |}
  end.

Section Submit.

(** The type of a trip response. *)
Variable PlanTripResponse : Type.

Record State : Type := mkApp {
  isLoading : bool;
  error : option string;
  tripResult : option PlanTripResponse
}.

(** How [await planTrip(request)] ends: with the body of the response
    ([None] for a falsy one), or with the rejection of the interceptor for
    an axios error with the given code. *)
Inductive Outcome : Type :=
| Resolved (result : option PlanTripResponse)
| Failed (axiosCode : option string) (e : Api.AxiosError).

(** [handleSubmit(formData)], once the request has ended. *)
Definition handleSubmit (outcome : Outcome) (st : State) : State :=
  let st1 := {| isLoading := true; error := None; tripResult := tripResult st |} in
  let st2 :=
    match outcome with
    | Resolved (Some result) =>
        {| isLoading := isLoading st1; error := error st1; tripResult := Some result |}
    | Resolved None =>
        let err := {| code := None;
                      thrownMessage := "Received empty response from server";
                      thrownIsApiError := false |} in
        {| isLoading := isLoading st1; error := Some (errorText err);
           tripResult := tripResult st1 |}
    | Failed axiosCode e =>
        {| isLoading := isLoading st1;
           error := Some (errorText (asThrown axiosCode (Api.onRejected e)));
           tripResult := tripResult st1 |}
    end in
  {| isLoading := false; error := error st2; tripResult := tripResult st2 |}.

End Submit.

Arguments isLoading {PlanTripResponse} _.
Arguments error {PlanTripResponse} _.
Arguments tripResult {PlanTripResponse} _.
Arguments Resolved {PlanTripResponse} _.
Arguments Failed {PlanTripResponse} _ _.
Arguments handleSubmit {PlanTripResponse} _ _.

End App.

(** ** TripItinerary: the schedule grouped by day *)

Module Itinerary.

(** The value of a decimal digit. *)
Definition digit (c : Ascii.ascii) : option N :=
  let n := Ascii.N_of_ascii c in
  if ((48 <=? n) && (n <=? 57))%N then Some (n - 48)%N else None.

(** The number that a string of decimal digits denotes, continuing from
    [acc]. *)
Fixpoint numeral (s : string) (acc : N) : option N :=
  match s with
  | EmptyString => Some acc
  | String c rest =>
      match digit c with
      | Some d => numeral rest (acc * 10 + d)%N
      | None => None
      end
  end.

(** The index that a property key denotes when it is an array index: the
    key is the decimal numeral, without leading zeros, of an integer from 0
    to 2^32 - 2. *)
Definition arrayIndex (key : string) : option N :=
  match key with
  | EmptyString => None
  | String c rest =>
      if (Ascii.N_of_ascii c =? 48)%N then
        if String.eqb rest EmptyString then Some 0%N else None
      else
        match numeral key 0 with
        | Some n => if (n <=? 4294967294)%N then Some n else None
        | None => None
        end
  end.

Section Grouping.

Variable Segment : Type.

(** The day label of a segment:
    [new Date(segment.start).toLocaleDateString('en-US', ...)]. *)
Variable dayOf : Segment -> string.

(** The own properties of the object [scheduleByDay], in the order in
    which they were created. This is not always the order in which the
    object lists them: see [entries]. *)
Definition Groups : Type := list (string * list Segment).

Definition isIndexed (g : string * list Segment) : bool :=
  match arrayIndex (fst g) with
  | Some _ => true
  | None => false
  end.

Definition indexOf (g : string * list Segment) : N :=
  match arrayIndex (fst g) with
  | Some n => n
  | None => 0%N
  end.

Fixpoint insertByIndex (g : string * list Segment) (l : Groups) : Groups :=
  match l with
  | [] => [g]
  | h :: rest =>
      if (indexOf g <=? indexOf h)%N then g :: h :: rest
      else h :: insertByIndex g rest
  end.

Definition sortByIndex (l : Groups) : Groups :=
  List.fold_right insertByIndex [] l.

(** [Object.entries(scheduleByDay)]: an object lists the properties whose
    key is an array index first, in ascending order of the index, and then
    its other properties in the order in which they were created. *)
Definition entries (groups : Groups) : Groups :=
  sortByIndex (List.filter isIndexed groups)
  ++ List.filter (fun g => negb (isIndexed g)) groups.

Fixpoint lookupDay (groups : Groups) (day : string) : option (list Segment) :=
  match groups with
  | [] => None
  | (d, segs) :: rest => if String.eqb d day then Some segs else lookupDay rest day
  end.

(** [scheduleByDay[day].push(segment)] on an own property. *)
Fixpoint pushDay (groups : Groups) (day : string) (seg : Segment) : Groups :=
  match groups with
  | [] => []
  | (d, segs) :: rest =>
      if String.eqb d day then (d, segs ++ [seg]) :: rest
      else (d, segs) :: pushDay rest day seg
  end.

(** One pass of [schedule.forEach]: a day that names a property of
    Object.prototype finds the inherited value, which is truthy and has no
    [push], so the call throws a TypeError. *)
Definition addSegment (groups : Groups) (seg : Segment) : JS.Completion Groups :=
  let day := dayOf seg in
  match lookupDay groups day with
  | Some _ => JS.Returns (pushDay groups day seg)
  | None =>
      if bool_decide (day ∈ Markers.objectPrototype) then JS.Throws JS.OtherError
      else JS.Returns (pushDay (groups ++ [(day, [])]) day seg)
  end.

(** The loop over the schedule. *)
Fixpoint groupFrom (groups : Groups) (schedule : list Segment) : JS.Completion Groups :=
  match schedule with
  | [] => JS.Returns groups
  | seg :: rest =>
      match addSegment groups seg with
      | JS.Returns groups' => groupFrom groups' rest
      | JS.Throws e => JS.Throws e
      end
  end.

Definition scheduleByDay (schedule : list Segment) : JS.Completion Groups :=
  groupFrom [] schedule.

(** The segments of a day, in schedule order. *)
Definition segmentsOf (schedule : list Segment) (day : string) : list Segment :=
  List.filter (fun seg => String.eqb (dayOf seg) day) schedule.

(** The days of a schedule, each once, in the order of first appearance. *)
Fixpoint daysOf (schedule : list Segment) : list string :=
  match schedule with
  | [] => []
  | seg :: rest =>
      dayOf seg :: List.filter (fun d => negb (String.eqb d (dayOf seg))) (daysOf rest)
  end.

(** One group for every day of the schedule, in the order of first
    appearance, holding the segments of that day in schedule order. *)
Definition groupsOf (schedule : list Segment) : Groups :=
  List.map (fun d => (d, segmentsOf schedule d)) (daysOf schedule).

End Grouping.

End Itinerary.

(** ** Shapes of decoded polylines *)

Module Shape.

(** A coordinate whose numbers are integer multiples of 1e-5. *)
Definition onGrid (p : Polyline.Coordinate) : Prop :=
  exists n m : Z, p = (Polyline.divE5 n, Polyline.divE5 m).

(** [p'] is [p] with [la] and [lo] added to its latitude and longitude
    counted in units of 1e-5: the sums are integers, and the division by
    1e5 is applied to the sums. *)
Definition shifted (la lo : Z) (p' p : Polyline.Coordinate) : Prop :=
  exists n m : Z,
    p = (Polyline.divE5 n, Polyline.divE5 m)
    /\ p' = (Polyline.divE5 (n + la), Polyline.divE5 (m + lo)).

End Shape.

Import Polyline.

(** * Properties *)

(** ** The cursor of the decoder *)

Section Cursor.

Variable encoded : list N.

Lemma charCodeAt_geq_lt (i : nat) (k : Z) :
  JS.geq (JS.minus (JS.charCodeAt encoded i) 63) k = true -> (i < length encoded)%nat.
Proof.
  unfold JS.charCodeAt, JS.minus, JS.geq.
  destruct (encoded !! i) as [c|] eqn:E; simpl; [|discriminate].
  intros _. eapply lookup_lt_Some; eauto.
Qed.

(** The inner loop ends as soon as it has fuel for the characters left and
    one more read; it reads the indices from [index] on, one after the
    other, and stops at most one position past the end. *)
Lemma readDelta_reads (fuel index : nat) (shift result : Z) (rd : list nat) :
  (length encoded - index < fuel)%nat ->
  exists index' result',
    readDelta fuel encoded index shift result rd
      = Some (index', result', rd ++ seq index (index' - index))
    /\ (index < index')%nat
    /\ (index' <= S (Nat.max index (length encoded)))%nat.
Proof.
  revert index shift result rd.
  induction fuel as [|fuel IH]; intros index shift result rd Hfuel; [lia|].
  cbn [readDelta].
  destruct (JS.geq (JS.minus (JS.charCodeAt encoded index) 63) 32) eqn:Hge.
  - apply charCodeAt_geq_lt in Hge.
    destruct (IH (S index) (shift + 5)
                (JS.bitOr result
                   (JS.shiftLeft
                      (JS.bitAnd (JS.numToInt32 (JS.minus (JS.charCodeAt encoded index) 63)) 31)
                      shift))
                (rd ++ [index])) as (i' & r' & Heq & Hlt & Hle); [lia|].
    exists i', r'. rewrite Heq. split; [|lia].
    replace (i' - index)%nat with (S (i' - S index)) by lia.
    cbn [seq]. rewrite <- app_assoc. reflexivity.
  - exists (S index), (JS.bitOr result
                   (JS.shiftLeft
                      (JS.bitAnd (JS.numToInt32 (JS.minus (JS.charCodeAt encoded index) 63)) 31)
                      shift)).
    split; [|lia].
    replace (S index - index)%nat with 1%nat by lia. reflexivity.
Qed.

(** More fuel does not change what the inner loop returns. *)
Lemma readDelta_fuel_mono (fuel fuel' index : nat) (shift result : Z) (rd : list nat) r :
  readDelta fuel encoded index shift result rd = Some r ->
  (fuel <= fuel')%nat ->
  readDelta fuel' encoded index shift result rd = Some r.
Proof.
  revert fuel' index shift result rd.
  induction fuel as [|fuel IH]; intros fuel' index shift result rd H Hle; [discriminate|].
  destruct fuel' as [|fuel']; [lia|].
  cbn [readDelta] in *.
  destruct (JS.geq _ 32); [|exact H].
  apply IH; [exact H | lia].
Qed.

(** One pass of the outer loop, entered with the cursor inside the string. *)
Lemma decodeStep_reads (innerFuel : nat) (st : DecoderState) :
  (length encoded < innerFuel)%nat ->
  (index st < length encoded)%nat ->
  exists st',
    decodeStep innerFuel encoded st = Some st'
    /\ (index st + 2 <= index st' <= length encoded + 2)%nat
    /\ reads st' = reads st ++ seq (index st) (index st' - index st)
    /\ length (points st') = S (length (points st)).
Proof.
  intros Hfuel Hin. unfold decodeStep.
  destruct (readDelta_reads innerFuel (index st) 0 0 (reads st))
    as (i1 & r1 & E1 & Hlt1 & Hle1); [lia|].
  rewrite E1. cbn.
  destruct (readDelta_reads innerFuel i1 0 0 (reads st ++ seq (index st) (i1 - index st)))
    as (i2 & r2 & E2 & Hlt2 & Hle2); [lia|].
  rewrite E2. cbn.
  eexists. split; [reflexivity|]. cbn.
  repeat split; try lia.
  - rewrite <- app_assoc. f_equal.
    replace (i2 - index st)%nat with ((i1 - index st) + (i2 - i1))%nat by lia.
    rewrite seq_app. f_equal. f_equal. lia.
  - rewrite length_app. cbn. lia.
Qed.

Lemma decodeStep_fuel_mono (f f' : nat) (st st' : DecoderState) :
  decodeStep f encoded st = Some st' -> (f <= f')%nat ->
  decodeStep f' encoded st = Some st'.
Proof.
  unfold decodeStep. intros H Hle.
  destruct (readDelta f encoded (index st) 0 0 (reads st)) as [[[i1 r1] rd1]|] eqn:E1;
    [|discriminate].
  rewrite (readDelta_fuel_mono _ f' _ _ _ _ _ E1 Hle). cbn in *.
  destruct (readDelta f encoded i1 0 0 rd1) as [[[i2 r2] rd2]|] eqn:E2; [|discriminate].
  rewrite (readDelta_fuel_mono _ f' _ _ _ _ _ E2 Hle). exact H.
Qed.

(** The outer loop ends with the cursor at or past the end, having read
    every index from where it started. *)
Lemma decodeLoop_reads (fuel innerFuel : nat) (st : DecoderState) :
  (length encoded < innerFuel)%nat ->
  (length encoded - index st < fuel)%nat ->
  exists st',
    decodeLoop fuel innerFuel encoded st = Some st'
    /\ (length encoded <= index st')%nat
    /\ (index st <= index st')%nat
    /\ (index st' <= Nat.max (index st) (length encoded + 2))%nat
    /\ reads st' = reads st ++ seq (index st) (index st' - index st).
Proof.
  intros Hin. revert st.
  induction fuel as [|fuel IH]; intros st Hfuel; [lia|].
  cbn [decodeLoop].
  destruct (Nat.ltb_spec (index st) (length encoded)) as [Hlt|Hge].
  - destruct (decodeStep_reads innerFuel st Hin Hlt) as (st1 & E1 & Hi1 & Hr1 & _).
    rewrite E1. cbn.
    destruct (IH st1) as (st2 & E2 & Hend & Hmono & Hmax & Hr2); [lia|].
    exists st2. split; [exact E2|]. repeat split; try lia.
    rewrite Hr2, Hr1, <- app_assoc. f_equal.
    replace (index st2 - index st)%nat
      with ((index st1 - index st) + (index st2 - index st1))%nat by lia.
    rewrite seq_app. f_equal. f_equal. lia.
  - exists st. split; [reflexivity|]. repeat split; try lia.
    replace (index st - index st)%nat with 0%nat by lia.
    cbn. rewrite app_nil_r. reflexivity.
Qed.

Lemma decodeLoop_fuel_mono (fuel fuel' f f' : nat) (st st' : DecoderState) :
  decodeLoop fuel f encoded st = Some st' ->
  (fuel <= fuel')%nat -> (f <= f')%nat ->
  decodeLoop fuel' f' encoded st = Some st'.
Proof.
  revert fuel' st.
  induction fuel as [|fuel IH]; intros fuel' st H Hle Hle'; [discriminate|].
  destruct fuel' as [|fuel']; [lia|].
  cbn [decodeLoop] in *.
  destruct (index st <? length encoded)%nat; [|exact H].
  destruct (decodeStep f encoded st) as [st1|] eqn:E1; [|discriminate].
  rewrite (decodeStep_fuel_mono _ f' _ _ E1 Hle'). cbn in *.
  apply IH; [exact H | lia | lia].
Qed.

End Cursor.

Lemma count_occ_seq (a n i : nat) :
  (a <= i < a + n)%nat -> count_occ Nat.eq_dec (seq a n) i = 1%nat.
Proof.
  revert a. induction n as [|n IH]; intros a H; [lia|].
  cbn [seq count_occ]. destruct (Nat.eq_dec a i) as [->|Hne].
  - f_equal. apply count_occ_not_In. rewrite in_seq. lia.
  - apply IH. lia.
Qed.

(** The run of the whole function: it ends for every string, whatever fuel
    beyond the length of the string the loops are given. *)
Lemma decodeRun_total (encoded : list N) :
  exists st,
    (forall extra extraInner : nat,
        decodeLoop (S (length encoded) + extra) (S (length encoded) + extraInner)
          encoded initialState = Some st)
    /\ decodeRun encoded = Some st
    /\ reads st = seq 0 (index st)
    /\ (length encoded <= index st <= length encoded + 2)%nat.
Proof.
  destruct (decodeLoop_reads encoded (S (length encoded)) (S (length encoded)) initialState)
    as (st & E & Hend & _ & Hmax & Hr); [lia | cbn; lia |].
  exists st. cbn [index reads initialState] in *.
  repeat split; try lia.
  - intros extra extraInner.
    eapply decodeLoop_fuel_mono; [exact E | lia | lia].
  - exact E.
  - rewrite Hr. cbn. f_equal. lia.
Qed.

(** C5: decodePolyline terminates on every string, the empty one included:
    with any fuel beyond the length of the string the loops reach their end
    and the function returns.  The indices handed to charCodeAt are exactly
    0, 1, ..., index-1 in this order, so the cursor only moves forward, and
    every character position of the input is read exactly once; the cursor
    ends at or after the end of the string. *)
Theorem decodePolyline_terminates_cursor_forward (encoded : list N) :
  exists st,
    (forall extra extraInner : nat,
        decodeLoop (S (length encoded) + extra) (S (length encoded) + extraInner)
          encoded initialState = Some st)
    /\ decodePolyline encoded = Some (JS.Returns (points st))
    /\ reads st = seq 0 (index st)
    /\ (length encoded <= index st)%nat
    /\ Forall (fun i => count_occ Nat.eq_dec (reads st) i = 1%nat)
         (seq 0 (length encoded)).
Proof.
  destruct (decodeRun_total encoded) as (st & Hfuel & Hrun & Hr & Hlen).
  exists st. repeat split; try assumption; try lia.
  - unfold decodePolyline. rewrite Hrun. reflexivity.
  - apply List.Forall_forall. intros i Hi. apply in_seq in Hi.
    rewrite Hr. apply count_occ_seq. lia.
Qed.

(** ** The 32-bit operators on values that fit *)

Section Int32.

Lemma toInt32_id (z : Z) : - 2 ^ 31 <= z < 2 ^ 31 -> JS.toInt32 z = z.
Proof.
  intros H. unfold JS.toInt32.
  change (2 ^ 31) with 2147483648 in *. change (2 ^ 32) with 4294967296.
  rewrite Z.mod_small; lia.
Qed.

Lemma lor_bound (a b k : Z) :
  0 <= k -> 0 <= a < 2 ^ k -> 0 <= b < 2 ^ k -> 0 <= Z.lor a b < 2 ^ k.
Proof.
  intros Hk Ha Hb.
  assert (Hnn : 0 <= Z.lor a b) by (apply Z.lor_nonneg; lia).
  split; [exact Hnn|].
  destruct (Z.eq_dec (Z.lor a b) 0) as [->|Hnz]; [apply Z.pow_pos_nonneg; lia|].
  apply Z.log2_lt_pow2; [lia|].
  rewrite Z.log2_lor by lia.
  destruct (Z.eq_dec a 0) as [->|Ha0]; destruct (Z.eq_dec b 0) as [->|Hb0].
  - exfalso. apply Hnz. reflexivity.
  - rewrite Z.max_r by (cbn; apply Z.log2_nonneg). apply Z.log2_lt_pow2; lia.
  - rewrite Z.max_l by (cbn; apply Z.log2_nonneg). apply Z.log2_lt_pow2; lia.
  - apply Z.max_lub_lt; apply Z.log2_lt_pow2; lia.
Qed.

Lemma land31_bound (b : Z) : 0 <= b -> 0 <= Z.land b 31 < 32.
Proof.
  intros Hb. change 31 with (Z.ones 5). rewrite Z.land_ones by lia.
  change (2 ^ 5) with 32. apply Z.mod_pos_bound. lia.
Qed.

Lemma shiftl_chunk_bound (x s : Z) :
  0 <= s -> 0 <= x < 32 -> 0 <= Z.shiftl x s < 2 ^ (s + 5).
Proof.
  intros Hs Hx. rewrite Z.shiftl_mul_pow2 by lia.
  rewrite Z.pow_add_r by lia. change (2 ^ 5) with 32.
  assert (0 < 2 ^ s) by (apply Z.pow_pos_nonneg; lia). nia.
Qed.

Lemma pow2_le_30 (s : Z) : 0 <= s <= 30 -> 0 < 2 ^ s <= 2 ^ 30.
Proof.
  intros H. split; [apply Z.pow_pos_nonneg; lia|].
  apply Z.pow_le_mono_r; lia.
Qed.

(** One character's contribution, as the source computes it with 32-bit
    operators, is the unbounded one while the value stays under 30 bits. *)
Lemma chunk_step_exact (byte shift result : Z) :
  0 <= byte < 2 ^ 31 -> 0 <= shift <= 25 -> 0 <= result < 2 ^ shift ->
  JS.bitOr result (JS.shiftLeft (JS.bitAnd (JS.toInt32 byte) 31) shift)
    = Z.lor result (Z.shiftl (Z.land byte 31) shift)
  /\ 0 <= Z.lor result (Z.shiftl (Z.land byte 31) shift) < 2 ^ (shift + 5).
Proof.
  intros Hb Hs Hr.
  pose proof (land31_bound byte ltac:(lia)) as Hc.
  pose proof (shiftl_chunk_bound (Z.land byte 31) shift ltac:(lia) Hc) as Hsh.
  pose proof (pow2_le_30 (shift + 5) ltac:(lia)) as Hp.
  assert (Hps : 2 ^ shift <= 2 ^ (shift + 5)) by (apply Z.pow_le_mono_r; lia).
  assert (Hlor : 0 <= Z.lor result (Z.shiftl (Z.land byte 31) shift) < 2 ^ (shift + 5))
    by (apply lor_bound; lia).
  split; [|exact Hlor].
  change (2 ^ 30) with 1073741824 in Hp.
  change (2 ^ 31) with 2147483648 in Hb.
  unfold JS.bitOr, JS.shiftLeft, JS.bitAnd.
  rewrite !(toInt32_id byte) by (change (2 ^ 31) with 2147483648; lia).
  rewrite (toInt32_id 31) by (change (2 ^ 31) with 2147483648; lia).
  rewrite !(toInt32_id (Z.land byte 31)) by (change (2 ^ 31) with 2147483648; lia).
  rewrite (Z.mod_small shift 32) by lia.
  rewrite !(toInt32_id (Z.shiftl _ _)) by (change (2 ^ 31) with 2147483648; lia).
  rewrite (toInt32_id result) by (change (2 ^ 31) with 2147483648; lia).
  apply toInt32_id. change (2 ^ 31) with 2147483648; lia.
Qed.

(** On a value of at most 31 bits the source's sign conversion is step 3. *)
Lemma signedDelta_exact (r : Z) :
  0 <= r < 2 ^ 31 -> signedDelta r = PolylineSpec.signedOf r.
Proof.
  intros Hr. change (2 ^ 31) with 2147483648 in Hr.
  unfold signedDelta, PolylineSpec.signedOf, JS.bitAnd, JS.bitNot, JS.shiftRight.
  rewrite (toInt32_id r) by (change (2 ^ 31) with 2147483648; lia).
  rewrite (toInt32_id 1) by (change (2 ^ 31) with 2147483648; lia).
  change (1 mod 32) with 1.
  assert (Hsr : 0 <= Z.shiftr r 1 < 2147483648).
  { rewrite Z.shiftr_div_pow2 by lia. change (2 ^ 1) with 2.
    split; [apply Z.div_pos; lia | apply Z.div_lt_upper_bound; lia]. }
  assert (Hland : Z.land r 1 = Z.b2z (Z.testbit r 0)).
  { change 1 with (Z.ones 1) at 1. rewrite Z.land_ones by lia.
    rewrite Z.bit0_mod. reflexivity. }
  rewrite Hland.
  rewrite (toInt32_id (Z.b2z _))
    by (change (2 ^ 31) with 2147483648; destruct (Z.testbit r 0); cbn; lia).
  rewrite (toInt32_id (Z.shiftr r 1)) by (change (2 ^ 31) with 2147483648; lia).
  destruct (Z.testbit r 0); cbn [Z.b2z Z.eqb negb]; [|reflexivity].
  apply toInt32_id. change (2 ^ 31) with 2147483648.
  unfold Z.lnot. lia.
Qed.

End Int32.

(** ** The source against the algorithm of section 4.1 *)

Section Refinement.

Lemma charCodeAt_middle (pre : list N) (c : N) (rest : list N) :
  JS.charCodeAt (pre ++ c :: rest) (length pre) = Some (Z.of_N c).
Proof.
  unfold JS.charCodeAt. rewrite list_lookup_middle by reflexivity. reflexivity.
Qed.

(** One value of a well-formed string: the inner loop of the source and
    step 2 read the same characters and accumulate the same value. *)
Lemma readDelta_wellFormed (chars : list N) :
  forall (pre : list N) (inLng : bool) (count fuel : nat) (shift result : Z)
         (rd : list nat),
    chars <> [] ->
    PolylineSpec.wellFormedFrom chars inLng count = true ->
    shift = 5 * Z.of_nat count ->
    0 <= result < 2 ^ shift ->
    (length chars < fuel)%nat ->
    exists grp rest result' rd',
      chars = grp ++ rest /\ grp <> []
      /\ PolylineSpec.readValue chars shift result = Some (result', rest)
      /\ readDelta fuel (pre ++ chars) (length pre) shift result rd
           = Some ((length pre + length grp)%nat, result', rd')
      /\ PolylineSpec.wellFormedFrom rest (negb inLng) 0 = true
      /\ 0 <= result' < 2 ^ 30.
Proof.
  induction chars as [|c chars IH]; intros pre inLng count fuel shift result rd
    Hne Hwf Hshift Hres Hfuel; [congruence|].
  cbn [PolylineSpec.wellFormedFrom] in Hwf.
  apply andb_prop in Hwf as [Hwf Hcont].
  apply andb_prop in Hwf as [Hwf Hcount].
  apply andb_prop in Hwf as [Hlo Hhi].
  apply N.leb_le in Hlo. apply N.leb_le in Hhi. apply Nat.ltb_lt in Hcount.
  destruct fuel as [|fuel]; [cbn in Hfuel; lia|].
  cbn [readDelta PolylineSpec.readValue].
  rewrite charCodeAt_middle.
  cbn [JS.minus JS.geq JS.numToInt32 fmap option_fmap option_map].
  destruct (chunk_step_exact (Z.of_N c - 63) shift result) as [Hstep Hbound];
    [change (2 ^ 31) with 2147483648; lia | lia | lia |].
  rewrite Hstep.
  replace (Z.of_N c - 63 <? 0) with false by (symmetry; apply Z.ltb_ge; lia).
  assert (Hp : 2 ^ (shift + 5) <= 2 ^ 30) by (apply Z.pow_le_mono_r; lia).
  destruct (N.leb_spec 95 c) as [Hc|Hc].
  - replace (32 <=? Z.of_N c - 63) with true by (symmetry; apply Z.leb_le; lia).
    assert (Hne' : chars <> []).
    { intros ->. cbn in Hcont. rewrite andb_false_r in Hcont. discriminate. }
    destruct (IH (pre ++ [c]) inLng (S count) fuel (shift + 5)
                (Z.lor result (Z.shiftl (Z.land (Z.of_N c - 63) 31) shift))
                (rd ++ [length pre]))
      as (grp & rest & r' & rd' & Hsplit & Hgrp & Hspec & Hsrc & Hrest & Hr');
      [exact Hne' | exact Hcont | lia | exact Hbound | cbn in Hfuel; lia |].
    exists (c :: grp), rest, r', rd'.
    rewrite <- app_assoc in Hsrc. cbn [app] in Hsrc.
    rewrite length_app in Hsrc. cbn [length] in Hsrc.
    replace (length pre + 1)%nat with (S (length pre)) in Hsrc by lia.
    repeat split; try assumption; try lia.
    + cbn. rewrite Hsplit. reflexivity.
    + discriminate.
    + rewrite Hsrc. do 3 f_equal. cbn. lia.
  - replace (32 <=? Z.of_N c - 63) with false by (symmetry; apply Z.leb_gt; lia).
    exists [c], chars, (Z.lor result (Z.shiftl (Z.land (Z.of_N c - 63) 31) shift)),
      (rd ++ [length pre]).
    repeat split; try assumption; try lia.
    + discriminate.
    + do 3 f_equal. cbn. lia.
Qed.

Lemma wellFormedFrom_lng_nonempty (chars : list N) :
  PolylineSpec.wellFormedFrom chars true 0 = true -> chars <> [].
Proof. intros H ->. discriminate. Qed.

(** The whole loop on a well-formed string: the source emits what steps 4
    to 6 emit. *)
Lemma decodeLoop_wellFormed (n : nat) :
  forall (chars pre : list N) (st : DecoderState) (fuel innerFuel : nat),
    (length chars <= n)%nat ->
    PolylineSpec.wellFormedFrom chars false 0 = true ->
    index st = length pre ->
    (n < fuel)%nat ->
    (length (pre ++ chars) < innerFuel)%nat ->
    exists pts st',
      PolylineSpec.decodeFrom n chars (lat st) (lng st) = Some pts
      /\ decodeLoop fuel innerFuel (pre ++ chars) st = Some st'
      /\ points st' = points st ++ pts.
Proof.
  induction n as [|n IH]; intros chars pre st fuel innerFuel Hlen Hwf Hidx Hfuel Hinner.
  - destruct chars as [|c chars]; [|cbn in Hlen; lia].
    destruct fuel as [|fuel]; [lia|].
    exists [], st. cbn [PolylineSpec.decodeFrom decodeLoop].
    rewrite app_nil_r, Hidx, Nat.ltb_irrefl, app_nil_r. auto.
  - destruct fuel as [|fuel]; [lia|].
    destruct chars as [|c chars].
    { exists [], st. cbn [PolylineSpec.decodeFrom decodeLoop].
      rewrite app_nil_r, Hidx, Nat.ltb_irrefl, app_nil_r. auto. }
    set (cs := c :: chars) in *.
    assert (Hcs : cs <> []) by (subst cs; discriminate).
    rewrite length_app in Hinner.
    destruct (readDelta_wellFormed cs pre false 0 innerFuel 0 0 (reads st))
      as (g1 & rest1 & r1 & rd1 & Hs1 & Hg1 & Hspec1 & Hsrc1 & Hwf1 & Hr1);
      [exact Hcs | exact Hwf | reflexivity | cbn; lia | lia |].
    cbn [negb] in Hwf1.
    pose proof (wellFormedFrom_lng_nonempty rest1 Hwf1) as Hrest1.
    assert (Hlen1 : (length cs = length g1 + length rest1)%nat)
      by (rewrite Hs1 at 1; apply length_app).
    destruct (readDelta_wellFormed rest1 (pre ++ g1) true 0 innerFuel 0 0 rd1)
      as (g2 & rest2 & r2 & rd2 & Hs2 & Hg2 & Hspec2 & Hsrc2 & Hwf2 & Hr2);
      [exact Hrest1 | exact Hwf1 | reflexivity | cbn; lia | lia |].
    cbn [negb] in Hwf2.
    assert (Hlen2 : (length rest1 = length g2 + length rest2)%nat)
      by (rewrite Hs2 at 1; apply length_app).
    assert (Hg1pos : (0 < length g1)%nat) by (destruct g1; [congruence | cbn; lia]).
    assert (Hg2pos : (0 < length g2)%nat) by (destruct g2; [congruence | cbn; lia]).
    assert (Henc1 : pre ++ cs = (pre ++ g1) ++ rest1)
      by (rewrite Hs1, app_assoc; reflexivity).
    assert (Henc2 : pre ++ cs = ((pre ++ g1) ++ g2) ++ rest2)
      by (rewrite Henc1, Hs2, app_assoc; reflexivity).
    set (lat' := lat st + signedDelta r1).
    set (lng' := lng st + signedDelta r2).
    set (st1 := {| index := (length (pre ++ g1) + length g2)%nat;
                   lat := lat'; lng := lng';
                   points := points st ++ [(divE5 lat', divE5 lng')];
                   reads := rd2 |}).
    assert (Hstep : decodeStep innerFuel (pre ++ cs) st = Some st1).
    { unfold decodeStep. rewrite Hidx, Hsrc1. cbn.
      rewrite <- length_app. rewrite Henc1, Hsrc2. cbn. reflexivity. }
    destruct (IH rest2 ((pre ++ g1) ++ g2) st1 fuel innerFuel)
      as (pts & st' & Hspec & Hsrc & Hpts);
      [lia | exact Hwf2 | subst st1; cbn; rewrite !length_app; lia | lia
      | rewrite <- Henc2, length_app; lia |].
    exists ((divE5 lat', divE5 lng') :: pts), st'.
    assert (Hsig1 : signedDelta r1 = PolylineSpec.signedOf r1)
      by (apply signedDelta_exact; change (2 ^ 30) with 1073741824 in Hr1;
          change (2 ^ 31) with 2147483648; lia).
    assert (Hsig2 : signedDelta r2 = PolylineSpec.signedOf r2)
      by (apply signedDelta_exact; change (2 ^ 30) with 1073741824 in Hr2;
          change (2 ^ 31) with 2147483648; lia).
    repeat split.
    + cbn [PolylineSpec.decodeFrom]. unfold cs at 1.
      cbn [PolylineSpec.decodeFrom]. fold cs. rewrite Hspec1. cbn. rewrite Hspec2. cbn.
      rewrite <- Hsig1, <- Hsig2. fold lat' lng'.
      cbn [lat lng st1] in Hspec. rewrite Hspec. reflexivity.
    + cbn [decodeLoop].
      replace (index st <? length (pre ++ cs))%nat with true
        by (symmetry; apply Nat.ltb_lt; rewrite Hidx, length_app; subst cs; cbn; lia).
      rewrite Hstep. cbn. rewrite Henc2. exact Hsrc.
    + rewrite Hpts. subst st1. cbn. rewrite <- app_assoc. reflexivity.
Qed.

(** On every well-formed string decodePolyline returns what the algorithm
    of section 4.1 yields. *)
Lemma decodePolyline_refines (encoded : list N) :
  PolylineSpec.wellFormed encoded = true ->
  exists pts,
    PolylineSpec.decode encoded = Some pts
    /\ decodePolyline encoded = Some (JS.Returns pts).
Proof.
  intros Hwf.
  destruct (decodeLoop_wellFormed (length encoded) encoded [] initialState
              (S (length encoded)) (S (length encoded)))
    as (pts & st & Hspec & Hsrc & Hpts);
    [lia | exact Hwf | reflexivity | lia | cbn; lia |].
  exists pts. split; [exact Hspec|].
  unfold decodePolyline, decodeRun. cbn [app] in Hsrc. rewrite Hsrc. cbn.
  rewrite Hpts. reflexivity.
Qed.

End Refinement.

(** The reference coordinates are also what the divisions give in double
    precision. *)
Lemma reference_in_doubles :
  (pts ← decodePolyline referencePolyline;
   match pts with
   | JS.Returns l => Some (List.map (fun p => (asDouble (fst p), asDouble (snd p))) l)
   | JS.Throws _ => None
   end)
  = Some [(38.5, -120.2); (40.7, -120.95); (43.252, -126.453)]%float.
Proof. vm_compute. reflexivity. Qed.

(** Why a well-formed value has at most six characters: in a seventh
    character the shift by 30 drops every bit above the lowest two, so the
    source yields 0 where the unbounded algorithm yields 2^31. *)
Lemma seven_character_value_wraps :
  PolylineSpec.decode (codeUnits "______C?")
    = Some [(2147483648 # 100000, 0 # 100000)%Q]
  /\ decodePolyline (codeUnits "______C?")
    = Some (JS.Returns [(0 # 100000, 0 # 100000)%Q])
  /\ PolylineSpec.wellFormed (codeUnits "______C?") = false.
Proof. repeat split; vm_compute; reflexivity. Qed.

(** C1: decodePolyline implements the algorithm of section 4.1: on every
    well-formed encoded string it returns exactly the coordinates that the
    specification's steps produce (five-bit groups of charCode - 63 with
    continuation while the byte is at least 0x20, the signed delta taken as
    the complement of result >> 1 when the lowest bit is set and result >> 1
    otherwise, deltas added in turn to lat and lng, and (lat/1e5, lng/1e5)
    emitted per pair); and the reference input decodes to
    (38.5, -120.2), (40.7, -120.95), (43.252, -126.453). *)
Theorem decodePolyline_implements_spec :
  (forall encoded : list N,
      PolylineSpec.wellFormed encoded = true ->
      exists pts,
        PolylineSpec.decode encoded = Some pts
        /\ decodePolyline encoded = Some (JS.Returns pts))
  /\ (exists pts,
        decodePolyline referencePolyline = Some (JS.Returns pts)
        /\ Forall2 coordEq pts
             [(38.5, -120.2); (40.7, -120.95); (43.252, -126.453)]%Q).
Proof.
  split; [exact decodePolyline_refines|].
  eexists. split; [vm_compute; reflexivity|].
  repeat constructor.
Qed.

Lemma decodePolyline_implements_spec_witness :
  PolylineSpec.wellFormed referencePolyline = true
  /\ exists pts,
       PolylineSpec.decode referencePolyline = Some pts
       /\ decodePolyline referencePolyline = Some (JS.Returns pts).
Proof.
  split; [reflexivity|].
  apply (proj1 decodePolyline_implements_spec referencePolyline). reflexivity.
Defined.

(** ** A string that ends in the middle of a value *)

Section Truncated.

Variable s : list N.

(** What the loop uses of a character, its low bits and whether it
    continues the value, is the same for the NaN read past the end and for
    a '?' (byte 0) appended there. *)
Lemma charCode_snoc (i : nat) :
  JS.numToInt32 (JS.minus (JS.charCodeAt (s ++ [63%N]) i) 63)
    = JS.numToInt32 (JS.minus (JS.charCodeAt s i) 63)
  /\ JS.geq (JS.minus (JS.charCodeAt (s ++ [63%N]) i) 63) 32
    = JS.geq (JS.minus (JS.charCodeAt s i) 63) 32.
Proof.
  unfold JS.charCodeAt.
  destruct (Nat.lt_trichotomy i (length s)) as [Hlt|[->|Hgt]].
  - rewrite lookup_app_l by exact Hlt. auto.
  - rewrite list_lookup_middle by reflexivity.
    rewrite (lookup_ge_None_2 s (length s)) by lia. cbn. auto.
  - rewrite !lookup_ge_None_2; [auto | lia | rewrite length_app; cbn; lia].
Qed.

Lemma readDelta_snoc (fuel i : nat) (shift result : Z) (rd : list nat) :
  readDelta fuel (s ++ [63%N]) i shift result rd = readDelta fuel s i shift result rd.
Proof.
  revert i shift result rd.
  induction fuel as [|fuel IH]; intros i shift result rd; [reflexivity|].
  cbn [readDelta]. destruct (charCode_snoc i) as [-> ->].
  rewrite IH. reflexivity.
Qed.

Lemma decodeStep_snoc (f : nat) (st : DecoderState) :
  decodeStep f (s ++ [63%N]) st = decodeStep f s st.
Proof.
  unfold decodeStep. rewrite readDelta_snoc.
  destruct (readDelta f s (index st) 0 0 (reads st)) as [[[i1 r1] rd1]|]; [|reflexivity].
  cbn. rewrite readDelta_snoc. reflexivity.
Qed.

(** The character under the last read of the inner loop does not carry the
    continuation bit. *)
Lemma readDelta_last_read (fuel i : nat) (shift result : Z) (rd : list nat)
    (i' : nat) (r' : Z) (rd' : list nat) :
  readDelta fuel s i shift result rd = Some (i', r', rd') ->
  (i < i')%nat
  /\ JS.geq (JS.minus (JS.charCodeAt s (i' - 1)) 63) 32 = false.
Proof.
  revert i shift result rd.
  induction fuel as [|fuel IH]; intros i shift result rd H; [discriminate|].
  cbn [readDelta] in H.
  destruct (JS.geq (JS.minus (JS.charCodeAt s i) 63) 32) eqn:Hge.
  - apply IH in H as [Hlt Hlast]. split; [lia | exact Hlast].
  - injection H as <- _ _. split; [lia|].
    replace (S i - 1)%nat with i by lia. exact Hge.
Qed.

Hypothesis Hmid : endsMidDelta s = true.

Lemma endsMidDelta_last :
  s <> [] /\ JS.geq (JS.minus (JS.charCodeAt s (length s - 1)) 63) 32 = true.
Proof.
  unfold endsMidDelta in Hmid.
  destruct (last s) as [c|] eqn:Hlast; [|discriminate].
  split; [intros ->; discriminate|].
  rewrite last_lookup in Hlast.
  unfold JS.charCodeAt. replace (length s - 1)%nat with (Nat.pred (length s)) by lia.
  rewrite Hlast. exact Hmid.
Qed.

(** A pass of the outer loop never leaves the cursor exactly at the end. *)
Lemma decodeStep_not_at_end (f : nat) (st st' : DecoderState) :
  decodeStep f s st = Some st' -> index st' <> length s.
Proof.
  unfold decodeStep. intros H.
  destruct (readDelta f s (index st) 0 0 (reads st)) as [[[i1 r1] rd1]|]; [|discriminate].
  cbn in H.
  destruct (readDelta f s i1 0 0 rd1) as [[[i2 r2] rd2]|] eqn:E2; [|discriminate].
  cbn in H. injection H as <-. cbn.
  apply readDelta_last_read in E2 as [_ Hlast].
  intros Heq. rewrite Heq in Hlast.
  destruct endsMidDelta_last as [_ Hge]. congruence.
Qed.

Lemma decodeLoop_snoc (fuel f : nat) (st : DecoderState) :
  index st <> length s ->
  decodeLoop fuel f (s ++ [63%N]) st = decodeLoop fuel f s st.
Proof.
  revert st. induction fuel as [|fuel IH]; intros st Hne; [reflexivity|].
  cbn [decodeLoop]. rewrite length_app. cbn [length].
  rewrite decodeStep_snoc.
  destruct (Nat.ltb_spec (index st) (length s)) as [Hlt|Hge].
  - replace (index st <? length s + 1)%nat with true
      by (symmetry; apply Nat.ltb_lt; lia).
    destruct (decodeStep f s st) as [st1|] eqn:E1; [|reflexivity].
    cbn. apply IH. eapply decodeStep_not_at_end; eauto.
  - replace (index st <? length s + 1)%nat with false
      by (symmetry; apply Nat.ltb_ge; lia).
    reflexivity.
Qed.

End Truncated.

Lemma decodeStep_points (f : nat) (s : list N) (st st' : DecoderState) :
  decodeStep f s st = Some st' -> exists p, points st' = points st ++ [p].
Proof.
  unfold decodeStep. intros H.
  destruct (readDelta f s (index st) 0 0 (reads st)) as [[[i1 r1] rd1]|]; [|discriminate].
  cbn in H.
  destruct (readDelta f s i1 0 0 rd1) as [[[i2 r2] rd2]|]; [|discriminate].
  cbn in H. injection H as <-. cbn. eauto.
Qed.

(** The loop only appends points, and appends at least one when it is
    entered with the cursor inside the string. *)
Lemma decodeLoop_points (fuel f : nat) (s : list N) (st st' : DecoderState) :
  decodeLoop fuel f s st = Some st' ->
  exists more,
    points st' = points st ++ more
    /\ ((index st <? length s)%nat = true -> more <> []).
Proof.
  revert st. induction fuel as [|fuel IH]; intros st H; [discriminate|].
  cbn [decodeLoop] in H.
  destruct (index st <? length s)%nat eqn:Hlt.
  - destruct (decodeStep f s st) as [st1|] eqn:E1; [|discriminate].
    cbn in H. apply IH in H as (more & Hpts & _).
    apply decodeStep_points in E1 as (p & Hp).
    exists (p :: more). split; [|discriminate].
    rewrite Hpts, Hp, <- app_assoc. reflexivity.
  - injection H as <-. exists []. split; [rewrite app_nil_r; reflexivity | discriminate].
Qed.

(** C2, as the code has it: decodePolyline applied to a string that is
    truncated in the middle of a value (the byte of its final character is
    at least 0x20) raises nothing.  The read past the end gives NaN, which
    ends the value and adds no bits, so the function returns the same
    non-empty coordinate list as for the string with a terminating '?'
    (byte 0) appended. *)
Theorem decodePolyline_truncated_returns (encoded : list N) :
  endsMidDelta encoded = true ->
  exists pts,
    decodePolyline encoded = Some (JS.Returns pts)
    /\ decodePolyline (encoded ++ [63%N]) = Some (JS.Returns pts)
    /\ pts <> [].
Proof.
  intros Hmid.
  destruct (endsMidDelta_last encoded Hmid) as [Hne _].
  destruct (decodeRun_total encoded) as (st & Hfuel & Hrun & _ & _).
  exists (points st). repeat split.
  - unfold decodePolyline. rewrite Hrun. reflexivity.
  - unfold decodePolyline, decodeRun.
    rewrite decodeLoop_snoc; [| exact Hmid | destruct encoded; [congruence | discriminate]].
    rewrite length_app. cbn [length].
    replace (S (length encoded + 1)) with (S (length encoded) + 1)%nat by lia.
    rewrite Hfuel. reflexivity.
  - unfold decodeRun in Hrun.
    apply decodeLoop_points in Hrun as (more & Hpts & Hmore).
    rewrite Hpts. cbn. apply Hmore.
    apply Nat.ltb_lt. destruct encoded; [congruence | cbn; lia].
Qed.

Lemma decodePolyline_truncated_returns_witness :
  endsMidDelta (codeUnits "_") = true
  /\ exists pts,
       decodePolyline (codeUnits "_") = Some (JS.Returns pts)
       /\ decodePolyline (codeUnits "_" ++ [63%N]) = Some (JS.Returns pts)
       /\ pts <> [].
Proof.
  split; [reflexivity|].
  apply (decodePolyline_truncated_returns (codeUnits "_")). reflexivity.
Defined.

(** C2 as stated fails: the reference encoding without its final character
    ends in the middle of a longitude value, and decodePolyline returns
    three coordinates, the last one built from the partial value, instead of
    raising MalformedGeometry. *)
Lemma decodePolyline_truncated_no_raise :
  endsMidDelta (codeUnits "_p~iF~ps|U_ulLnnqC_mqNvxq`") = true
  /\ decodePolyline (codeUnits "_p~iF~ps|U_ulLnnqC_mqNvxq`")
     = Some (JS.Returns [(3850000 # 100000, -12020000 # 100000);
                         (4070000 # 100000, -12095000 # 100000);
                         (4325200 # 100000, -12121012 # 100000)]%Q)
  /\ decodePolyline (codeUnits "_p~iF~ps|U_ulLnnqC_mqNvxq`")
     <> Some (JS.Throws JS.MalformedGeometry).
Proof.
  split; [reflexivity|]. split; [vm_compute; reflexivity|].
  vm_compute. discriminate.
Qed.

(** ** The encoder against the decoder *)

Section RoundTrip.

Lemma chunk_bits (v : Z) :
  0 <= v ->
  63 <= Z.lor 32 (Z.land v 31) + 63 <= 126
  /\ 32 <= Z.lor 32 (Z.land v 31)
  /\ Z.land (Z.lor 32 (Z.land v 31)) 31 = Z.land v 31.
Proof.
  intros Hv. pose proof (land31_bound v Hv) as Hb.
  remember (Z.land v 31) as x eqn:Hx. clear Hx.
  assert (Hcases : Z.lor 32 x = 32 + x /\ Z.land (Z.lor 32 x) 31 = x).
  { destruct x as [|p|p]; [split; reflexivity | | lia].
    do 5 (destruct p as [p|p|]; try lia; try (split; reflexivity)). }
  destruct Hcases as [-> ->]. lia.
Qed.

Lemma lor_shift_join (v s : Z) :
  0 <= v -> 0 <= s ->
  Z.lor (Z.shiftl (Z.land v 31) s) (Z.shiftl (Z.shiftr v 5) (s + 5)) = Z.shiftl v s.
Proof.
  intros Hv Hs.
  replace (s + 5) with (5 + s) by lia.
  rewrite <- (Z.shiftl_shiftl (Z.shiftr v 5) 5 s) by lia.
  rewrite <- Z.shiftl_lor. f_equal.
  change 31 with (Z.ones 5).
  rewrite Z.land_ones, Z.shiftr_div_pow2, Z.shiftl_mul_pow2 by lia.
  rewrite Z.lor_comm.
  apply Z.bits_inj'. intros n Hn.
  rewrite Z.lor_spec.
  destruct (Z.lt_ge_cases n 5) as [Hlt|Hge].
  - rewrite Z.mul_pow2_bits_low by lia. cbn [orb].
    apply Z.mod_pow2_bits_low. lia.
  - rewrite Z.mod_pow2_bits_high by lia. rewrite orb_false_r.
    rewrite Z.mul_pow2_bits by lia.
    rewrite Z.div_pow2_bits by lia. f_equal. lia.
Qed.

(** Step 2 of the decoder reads back one encoded value. *)
Lemma readValue_encodeUnsigned (fuel : nat) :
  forall (v shift result : Z) (rest : list N),
    0 <= v -> 0 <= shift ->
    (Z.to_nat (Z.log2 v) < fuel)%nat ->
    PolylineSpec.readValue (Encoder.encodeUnsigned fuel v ++ rest) shift result
    = Some (Z.lor result (Z.shiftl v shift), rest).
Proof.
  induction fuel as [|fuel IH]; intros v shift result rest Hv Hs Hfuel; [lia|].
  cbn [Encoder.encodeUnsigned].
  destruct (Z.leb_spec 32 v) as [Hbig|Hsmall].
  - destruct (chunk_bits v Hv) as (Hrange & Hcont & Hlow).
    cbn [app PolylineSpec.readValue].
    rewrite Z2N.id by lia.
    replace (Z.lor 32 (Z.land v 31) + 63 - 63) with (Z.lor 32 (Z.land v 31)) by lia.
    replace (Z.lor 32 (Z.land v 31) <? 0) with false by (symmetry; apply Z.ltb_ge; lia).
    replace (32 <=? Z.lor 32 (Z.land v 31)) with true by (symmetry; apply Z.leb_le; lia).
    rewrite Hlow.
    rewrite IH.
    + rewrite <- Z.lor_assoc, lor_shift_join by lia. reflexivity.
    + apply Z.shiftr_nonneg. lia.
    + lia.
    + rewrite Z.log2_shiftr by lia.
      assert (5 <= Z.log2 v) by (apply (Z.log2_le_pow2 v 5); [lia | change (2 ^ 5) with 32; lia]).
      lia.
  - cbn [app PolylineSpec.readValue].
    rewrite Z2N.id by lia.
    replace (v + 63 - 63) with v by lia.
    replace (v <? 0) with false by (symmetry; apply Z.ltb_ge; lia).
    replace (32 <=? v) with false by (symmetry; apply Z.leb_gt; lia).
    change 31 with (Z.ones 5). rewrite Z.land_ones by lia.
    change (2 ^ 5) with 32. rewrite Z.mod_small by lia. reflexivity.
Qed.

(** An encoded value of at most 5 * (6 - count) bits is a well-formed value
    of the string when [count] of its characters precede it. *)
Lemma wellFormedFrom_encodeUnsigned (fuel : nat) :
  forall (v : Z) (count : nat) (b : bool) (rest : list N),
    0 <= v < 2 ^ (5 * (6 - Z.of_nat count)) ->
    (count < 6)%nat ->
    (Z.to_nat (Z.log2 v) < fuel)%nat ->
    PolylineSpec.wellFormedFrom (Encoder.encodeUnsigned fuel v ++ rest) b count
    = PolylineSpec.wellFormedFrom rest (negb b) 0.
Proof.
  induction fuel as [|fuel IH]; intros v count b rest Hv Hcount Hfuel; [lia|].
  cbn [Encoder.encodeUnsigned].
  destruct (Z.leb_spec 32 v) as [Hbig|Hsmall].
  - destruct (chunk_bits v ltac:(lia)) as (Hrange & Hcont & _).
    cbn [app PolylineSpec.wellFormedFrom].
    assert (Hc5 : (count < 5)%nat).
    { destruct (Nat.eq_dec count 5%nat) as [->|]; [|lia].
      change (2 ^ (5 * (6 - Z.of_nat 5))) with 32 in Hv. lia. }
    replace (63 <=? Z.to_N (Z.lor 32 (Z.land v 31) + 63))%N with true
      by (symmetry; apply N.leb_le; lia).
    replace (Z.to_N (Z.lor 32 (Z.land v 31) + 63) <=? 126)%N with true
      by (symmetry; apply N.leb_le; lia).
    replace (95 <=? Z.to_N (Z.lor 32 (Z.land v 31) + 63))%N with true
      by (symmetry; apply N.leb_le; lia).
    replace (count <? 6)%nat with true by (symmetry; apply Nat.ltb_lt; lia).
    cbn [andb]. apply IH.
    + split; [apply Z.shiftr_nonneg; lia|].
      rewrite Z.shiftr_div_pow2 by lia. apply Z.div_lt_upper_bound; [reflexivity|].
      rewrite <- Z.pow_add_r by lia.
      replace (5 + 5 * (6 - Z.of_nat (S count))) with (5 * (6 - Z.of_nat count)) by lia.
      lia.
    + lia.
    + rewrite Z.log2_shiftr by lia.
      assert (5 <= Z.log2 v) by (apply (Z.log2_le_pow2 v 5); [lia | change (2 ^ 5) with 32; lia]).
      lia.
  - cbn [app PolylineSpec.wellFormedFrom].
    replace (63 <=? Z.to_N (v + 63))%N with true by (symmetry; apply N.leb_le; lia).
    replace (Z.to_N (v + 63) <=? 126)%N with true by (symmetry; apply N.leb_le; lia).
    replace (95 <=? Z.to_N (v + 63))%N with false by (symmetry; apply N.leb_gt; lia).
    replace (count <? 6)%nat with true by (symmetry; apply Nat.ltb_lt; lia).
    reflexivity.
Qed.

Lemma signedOf_unsignedOf (delta : Z) :
  PolylineSpec.signedOf (Encoder.unsignedOf delta) = delta.
Proof.
  unfold PolylineSpec.signedOf, Encoder.unsignedOf.
  rewrite Z.bit0_odd, Z.shiftl_mul_pow2 by lia. change (2 ^ 1) with 2.
  destruct (Z.ltb_spec delta 0) as [Hneg|Hpos].
  - replace (Z.lnot (delta * 2)) with (1 + 2 * (- delta - 1)) by (unfold Z.lnot; lia).
    rewrite Z.odd_add_mul_2. cbn [Z.odd].
    rewrite Z.shiftr_div_pow2 by lia. change (2 ^ 1) with 2.
    replace ((1 + 2 * (- delta - 1)) / 2) with (- delta - 1)
      by (apply (Z.div_unique _ 2 _ 1); lia).
    unfold Z.lnot. lia.
  - replace (delta * 2) with (0 + 2 * delta) by lia.
    rewrite Z.odd_add_mul_2. cbn [Z.odd].
    rewrite Z.shiftr_div_pow2 by lia. change (2 ^ 1) with 2.
    symmetry. apply (Z.div_unique _ 2 _ 0); lia.
Qed.

Lemma unsignedOf_bound (delta : Z) :
  - 2 ^ 29 <= delta < 2 ^ 29 -> 0 <= Encoder.unsignedOf delta < 2 ^ 30.
Proof.
  change (2 ^ 29) with 536870912. change (2 ^ 30) with 1073741824.
  intros H. unfold Encoder.unsignedOf.
  rewrite Z.shiftl_mul_pow2 by lia. change (2 ^ 1) with 2.
  destruct (Z.ltb_spec delta 0); unfold Z.lnot; lia.
Qed.

(** One encoded delta in front of [rest]: read back by step 2, and a
    well-formed value of the string. *)
Lemma encodeValue_decodes (delta : Z) (rest : list N) (b : bool) :
  - 2 ^ 29 <= delta < 2 ^ 29 ->
  Encoder.encodeValue delta <> []
  /\ PolylineSpec.readValue (Encoder.encodeValue delta ++ rest) 0 0
     = Some (Encoder.unsignedOf delta, rest)
  /\ PolylineSpec.wellFormedFrom (Encoder.encodeValue delta ++ rest) b 0
     = PolylineSpec.wellFormedFrom rest (negb b) 0.
Proof.
  intros H. pose proof (unsignedOf_bound delta H) as Hu.
  unfold Encoder.encodeValue. cbv zeta. repeat split.
  - cbn [Encoder.encodeUnsigned]. destruct (32 <=? _); discriminate.
  - rewrite readValue_encodeUnsigned by lia.
    rewrite Z.lor_0_l, Z.shiftl_0_r. reflexivity.
  - apply wellFormedFrom_encodeUnsigned; [exact Hu | lia | lia].
Qed.

Lemma Qfloor_half (m : Z) : Qfloor (inject_Z m + (1 # 2)) = m.
Proof.
  unfold Qfloor, inject_Z, Qplus. cbn [Qnum Qden].
  symmetry. apply (Z.div_unique _ _ _ 1); lia.
Qed.

(** Scaling a number rounded to five decimals gives an integer, and
    dividing that integer by 1e5 gives the number back. *)
Lemma toE5_rounded (q : Q) :
  Encoder.rounded5 q = true ->
  (divE5 (Encoder.toE5 q) == q)%Q
  /\ (inject_Z (Encoder.toE5 q) == q * 100000)%Q.
Proof.
  unfold Encoder.rounded5. intros H. apply Qeq_bool_iff in H.
  assert (HE : Encoder.toE5 q = Qfloor (q * 100000)).
  { unfold Encoder.toE5. rewrite H at 1. apply Qfloor_half. }
  rewrite HE. split; [|symmetry; exact H].
  unfold divE5. revert H. generalize (Qfloor (q * 100000)). intros m H.
  destruct q as [a b]. unfold Qeq, Qmult, inject_Z in *. cbn [Qnum Qden] in *.
  lia.
Qed.

Lemma toE5_range (q : Q) (k : Z) :
  Encoder.rounded5 q = true ->
  Qle_bool (inject_Z (- k)) q = true -> Qle_bool q (inject_Z k) = true ->
  - (k * 100000) <= Encoder.toE5 q <= k * 100000.
Proof.
  intros Hr Hlo Hhi.
  apply Qle_bool_iff in Hlo. apply Qle_bool_iff in Hhi.
  destruct (toE5_rounded q Hr) as [_ HE].
  split; rewrite Zle_Qle, HE.
  - replace (- (k * 100000)) with (- k * 100000) by lia.
    rewrite inject_Z_mult.
    apply Qmult_le_compat_r; [exact Hlo | discriminate].
  - rewrite inject_Z_mult.
    apply Qmult_le_compat_r; [exact Hhi | discriminate].
Qed.

Lemma validCoordinate_e5 (p : Coordinate) :
  Encoder.validCoordinate p = true ->
  coordEq p (Encoder.e5point p)
  /\ - 9000000 <= Encoder.toE5 (fst p) <= 9000000
  /\ - 18000000 <= Encoder.toE5 (snd p) <= 18000000.
Proof.
  unfold Encoder.validCoordinate. intros H.
  repeat (apply andb_prop in H as [H ?]).
  repeat split.
  - symmetry. apply toE5_rounded. assumption.
  - symmetry. apply toE5_rounded. assumption.
  - apply (toE5_range (fst p) 90); assumption.
  - apply (toE5_range (fst p) 90); assumption.
  - apply (toE5_range (snd p) 180); assumption.
  - apply (toE5_range (snd p) 180); assumption.
Qed.

Lemma decodeFrom_step (fuel : nat) (chars : list N) (la lo : Z) :
  chars <> [] ->
  PolylineSpec.decodeFrom (S fuel) chars la lo
  = ('(r1, rest1) ← PolylineSpec.readValue chars 0 0;
     '(r2, rest2) ← PolylineSpec.readValue rest1 0 0;
     pts ← PolylineSpec.decodeFrom fuel rest2
              (la + PolylineSpec.signedOf r1) (lo + PolylineSpec.signedOf r2);
     Some ((divE5 (la + PolylineSpec.signedOf r1),
            divE5 (lo + PolylineSpec.signedOf r2)) :: pts)).
Proof.
  destruct chars as [|c chars]; [congruence|]. intros _.
  cbn [PolylineSpec.decodeFrom].
  destruct (PolylineSpec.readValue (c :: chars) 0 0) as [[r1 rest1]|]; [|reflexivity].
  cbn. destruct (PolylineSpec.readValue rest1 0 0) as [[r2 rest2]|]; reflexivity.
Qed.

(** The specification's decoder inverts the encoder on coordinates of the
    data model, and the encoder's output is well formed. *)
Lemma decodeFrom_encodeFrom (pts : list Coordinate) :
  forall (prevLat prevLng : Z) (fuel : nat),
    forallb Encoder.validCoordinate pts = true ->
    - 9000000 <= prevLat <= 9000000 ->
    - 18000000 <= prevLng <= 18000000 ->
    (length pts <= fuel)%nat ->
    PolylineSpec.decodeFrom fuel (Encoder.encodeFrom pts prevLat prevLng) prevLat prevLng
    = Some (List.map Encoder.e5point pts)
    /\ PolylineSpec.wellFormedFrom (Encoder.encodeFrom pts prevLat prevLng) false 0 = true.
Proof.
  induction pts as [|[la lo] pts IH]; intros prevLat prevLng fuel Hvalid Hlat Hlng Hfuel.
  - split; [destruct fuel; reflexivity | reflexivity].
  - cbn [forallb] in Hvalid. apply andb_prop in Hvalid as [Hp Hrest].
    destruct (validCoordinate_e5 (la, lo) Hp) as (_ & Hla & Hlo).
    cbn [fst snd] in Hla, Hlo.
    destruct fuel as [|fuel]; [cbn in Hfuel; lia|].
    cbn [Encoder.encodeFrom List.map]. unfold Encoder.e5point at 1. cbn [fst snd].
    remember (Encoder.toE5 la) as nla eqn:Enla.
    remember (Encoder.toE5 lo) as nlo eqn:Enlo.
    remember (Encoder.encodeFrom pts nla nlo) as tail eqn:Etail.
    destruct (encodeValue_decodes (nla - prevLat)
                (Encoder.encodeValue (nlo - prevLng) ++ tail) false)
      as (Hne1 & Hread1 & Hwf1);
      [change (2 ^ 29) with 536870912; lia|].
    destruct (encodeValue_decodes (nlo - prevLng) tail true)
      as (Hne2 & Hread2 & Hwf2);
      [change (2 ^ 29) with 536870912; lia|].
    destruct (IH nla nlo fuel Hrest Hla Hlo) as [Hdec Hwf]; [cbn in Hfuel; lia|].
    rewrite <- Etail in Hdec, Hwf.
    split.
    + rewrite decodeFrom_step
        by (destruct (Encoder.encodeValue (nla - prevLat)); [congruence | discriminate]).
      rewrite Hread1.
      cbn -[Encoder.encodeValue Encoder.unsignedOf PolylineSpec.readValue
            PolylineSpec.decodeFrom PolylineSpec.signedOf Z.add Z.sub].
      rewrite Hread2.
      cbn -[Encoder.encodeValue Encoder.unsignedOf PolylineSpec.readValue
            PolylineSpec.decodeFrom PolylineSpec.signedOf Z.add Z.sub].
      rewrite !signedOf_unsignedOf.
      replace (prevLat + (nla - prevLat)) with nla by lia.
      replace (prevLng + (nlo - prevLng)) with nlo by lia.
      rewrite Hdec. reflexivity.
    + cbn [negb] in Hwf1, Hwf2. rewrite Hwf1, Hwf2. exact Hwf.
Qed.

Lemma encodeFrom_length (pts : list Coordinate) (prevLat prevLng : Z) :
  (length pts <= length (Encoder.encodeFrom pts prevLat prevLng))%nat.
Proof.
  revert prevLat prevLng. induction pts as [|[la lo] pts IH]; intros; [cbn; lia|].
  cbn [Encoder.encodeFrom length]. rewrite !length_app.
  specialize (IH (Encoder.toE5 la) (Encoder.toE5 lo)).
  assert (0 < length (Encoder.encodeValue (Encoder.toE5 la - prevLat)))%nat.
  { unfold Encoder.encodeValue. cbv zeta. cbn [Encoder.encodeUnsigned].
    destruct (32 <=? _); cbn; lia. }
  lia.
Qed.

End RoundTrip.

(** C7: for every sequence of coordinates of the data model, each rounded
    to five decimal places, encoding with the matching encoder (precision
    1e5) and decoding with decodePolyline gives the sequence back, element
    for element. *)
Theorem decode_encode_roundtrip (pts : list Coordinate) :
  forallb Encoder.validCoordinate pts = true ->
  exists out,
    decodePolyline (Encoder.encode pts) = Some (JS.Returns out)
    /\ Forall2 coordEq pts out.
Proof.
  intros Hvalid.
  destruct (decodeFrom_encodeFrom pts 0 0 (length (Encoder.encode pts)) Hvalid)
    as [Hdec Hwf]; [lia | lia | apply encodeFrom_length |].
  destruct (decodePolyline_refines (Encoder.encode pts) Hwf) as (out & Hspec & Hsrc).
  exists out. split; [exact Hsrc|].
  unfold PolylineSpec.decode, Encoder.encode in *. rewrite Hdec in Hspec.
  injection Hspec as <-.
  clear Hdec Hwf Hsrc. induction pts as [|p pts IH]; [constructor|].
  cbn [forallb] in Hvalid. apply andb_prop in Hvalid as [Hp Hrest].
  cbn [List.map]. constructor; [apply validCoordinate_e5; exact Hp | apply IH; exact Hrest].
Qed.

Lemma decode_encode_roundtrip_witness :
  forallb Encoder.validCoordinate
    [(38.5, -120.2); (40.7, -120.95); (43.252, -126.453)]%Q = true
  /\ exists out,
       decodePolyline
         (Encoder.encode [(38.5, -120.2); (40.7, -120.95); (43.252, -126.453)]%Q)
       = Some (JS.Returns out)
       /\ Forall2 coordEq [(38.5, -120.2); (40.7, -120.95); (43.252, -126.453)]%Q out.
Proof.
  split; [reflexivity|].
  apply (decode_encode_roundtrip [(38.5, -120.2); (40.7, -120.95); (43.252, -126.453)]%Q).
  reflexivity.
Defined.

(** ** The stops that get a marker *)

Section StopFilter.

Import RouteMap.

Lemma includes_pickup_dropoff (t : string) :
  includes ["PICKUP"; "DROPOFF"] t = false <-> t <> "PICKUP" /\ t <> "DROPOFF".
Proof.
  unfold includes. cbn [existsb]. rewrite orb_false_r, orb_false_iff.
  rewrite !String.eqb_neq. reflexivity.
Qed.

Lemma truthyNumber_spec (x : option Q) :
  truthyNumber x = true <-> exists q, x = Some q /\ ~ (q == 0)%Q.
Proof.
  destruct x as [q|]; cbn.
  - rewrite negb_true_iff. split.
    + intros H. exists q. split; [reflexivity|].
      intros Hq. apply Qeq_bool_iff in Hq. congruence.
    + intros (q' & [= <-] & Hq). apply not_true_is_false.
      intros Hb. apply Hq. apply Qeq_bool_iff. exact Hb.
  - split; [discriminate | intros (q & H & _); discriminate].
Qed.

(** What the filter keeps: the stops whose latitude and longitude are
    neither null nor zero and whose type is neither PICKUP nor DROPOFF. *)
Lemma classifyStopsForMap_keeps (stops : list Stop) (stop : Stop) :
  In stop (classifyStopsForMap stops) <->
  In stop stops
  /\ (exists la, stopLat stop = Some la /\ ~ (la == 0)%Q)
  /\ (exists lo, stopLng stop = Some lo /\ ~ (lo == 0)%Q)
  /\ stopType stop <> "PICKUP" /\ stopType stop <> "DROPOFF".
Proof.
  unfold classifyStopsForMap. rewrite filter_In. unfold stopOnMap.
  rewrite !andb_true_iff, negb_true_iff, includes_pickup_dropoff, !truthyNumber_spec.
  tauto.
Qed.

(** No stop in the output has a null latitude or longitude or the type
    PICKUP or DROPOFF. *)
Lemma classifyStopsForMap_sound (stops : list Stop) :
  Forall eligible (classifyStopsForMap stops).
Proof.
  apply List.Forall_forall. intros stop H.
  apply classifyStopsForMap_keeps in H
    as (_ & (la & Hla & _) & (lo & Hlo & _) & Hp & Hd).
  unfold eligible. rewrite Hla, Hlo. repeat split; congruence.
Qed.

End StopFilter.

(** C3 at a stop on the equator: a FUEL stop at latitude 0 and longitude
    -119 has a non-null latitude, a non-null longitude and a type that is
    neither PICKUP nor DROPOFF, and the filter drops it, because 0 is falsy
    in [stop.lat && stop.lng]. *)
Theorem classifyStopsForMap_drops_zero_latitude :
  let stop := {| RouteMap.stopType := "FUEL"; RouteMap.durationMinutes := 30;
                 RouteMap.location := "Equator"; RouteMap.stopLat := Some 0%Q;
                 RouteMap.stopLng := Some (-119)%Q; RouteMap.mileMarker := None;
                 RouteMap.reason := "Fuel" |} in
  RouteMap.eligible stop /\ RouteMap.classifyStopsForMap [stop] = [].
Proof.
  cbv zeta. split; [|reflexivity].
  unfold RouteMap.eligible. cbn. repeat split; discriminate.
Qed.

(** ** Colours and labels of stop types *)

Section StopTypes.

Import Markers.

Lemma colors_unknown (t : string) : t ∉ recognized -> colors !! t = None.
Proof.
  unfold recognized, colors. intros H.
  repeat (apply not_elem_of_cons in H as [? H]).
  rewrite !lookup_insert_ne by congruence.
  apply lookup_singleton_ne. congruence.
Qed.

Lemma labels_unknown (t : string) : t ∉ recognized -> labels !! t = None.
Proof.
  unfold recognized, labels. intros H.
  repeat (apply not_elem_of_cons in H as [? H]).
  rewrite !lookup_insert_ne by congruence.
  apply lookup_singleton_ne. congruence.
Qed.

(** Neither function raises, whatever the string. *)
Lemma stop_type_lookups_return (t : string) :
  (exists v, getStopTypeColor t = JS.Returns v)
  /\ (exists icon, stopIcon t = JS.Returns icon).
Proof. split; eexists; reflexivity. Qed.

(** A type that is neither recognized nor the name of a property of
    Object.prototype gets the default colour and the generic glyph. *)
Lemma stop_type_fallback (t : string) :
  t ∉ recognized -> t ∉ objectPrototype ->
  getStopTypeColor t = JS.Returns (Str "#000000")
  /\ stopIcon t = JS.Returns {| iconColor := Str "#000000"; iconLabel := Str "•" |}.
Proof.
  intros Hrec Hproto.
  unfold stopIcon, getStopTypeColor, createCustomIcon, getProperty.
  rewrite (colors_unknown t Hrec), (labels_unknown t Hrec).
  rewrite bool_decide_eq_false_2 by exact Hproto.
  split; reflexivity.
Qed.

End StopTypes.

(** C8 at the type string "constructor": it is outside the recognized set,
    and both lookups find the property that every object literal inherits
    from Object.prototype, which is truthy, so neither the default colour
    '#000000' nor the generic glyph is used.  Nothing is raised. *)
Theorem stopIcon_inherited_property :
  ("constructor" ∉ Markers.recognized)
  /\ Markers.getStopTypeColor "constructor"
     = JS.Returns (Markers.Inherited "constructor")
  /\ Markers.stopIcon "constructor"
     = JS.Returns {| Markers.iconColor := Markers.Inherited "constructor";
                     Markers.iconLabel := Markers.Inherited "constructor" |}.
Proof.
  split; [|split].
  - unfold Markers.recognized. intros H.
    repeat (apply elem_of_cons in H as [H|H]; [discriminate|]).
    apply elem_of_nil in H. exact H.
  - vm_compute. reflexivity.
  - vm_compute. reflexivity.
Qed.

(** ** The bounds of the map *)

Section Bounds.

Import RouteMap.

(** Extending a bounds object by a list of points: the corners only move
    outwards, the result contains every point, and each of its sides is a
    side it had before or passes through one of the points. *)
Lemma fold_extend (pts : list (Q * Q)) :
  forall b : LatLngBounds,
  exists b',
    fold_left extend pts (Some b) = Some b'
    /\ (fst (southWest b') <= fst (southWest b))%Q
    /\ (snd (southWest b') <= snd (southWest b))%Q
    /\ (fst (northEast b) <= fst (northEast b'))%Q
    /\ (snd (northEast b) <= snd (northEast b'))%Q
    /\ Forall (contains b') pts
    /\ ((fst (southWest b') == fst (southWest b))%Q
        \/ Exists (fun p => fst p == fst (southWest b'))%Q pts)
    /\ ((snd (southWest b') == snd (southWest b))%Q
        \/ Exists (fun p => snd p == snd (southWest b'))%Q pts)
    /\ ((fst (northEast b') == fst (northEast b))%Q
        \/ Exists (fun p => fst p == fst (northEast b'))%Q pts)
    /\ ((snd (northEast b') == snd (northEast b))%Q
        \/ Exists (fun p => snd p == snd (northEast b'))%Q pts).
Proof.
  induction pts as [|p pts IH]; intros b.
  - exists b. cbn.
    repeat split; first [apply Qle_refl | apply List.Forall_nil | left; reflexivity].
  - cbn [fold_left extend].
    destruct (IH {| southWest := (Qmin (fst p) (fst (southWest b)),
                                  Qmin (snd p) (snd (southWest b)));
                    northEast := (Qmax (fst p) (fst (northEast b)),
                                  Qmax (snd p) (snd (northEast b))) |})
      as (b' & Hfold & Hsw1 & Hsw2 & Hne1 & Hne2 & Hall & Ht1 & Ht2 & Ht3 & Ht4).
    cbn [southWest northEast fst snd] in *.
    exists b'. split; [exact Hfold|].
    pose proof (Q.le_min_l (fst p) (fst (southWest b))).
    pose proof (Q.le_min_r (fst p) (fst (southWest b))).
    pose proof (Q.le_min_l (snd p) (snd (southWest b))).
    pose proof (Q.le_min_r (snd p) (snd (southWest b))).
    pose proof (Q.le_max_l (fst p) (fst (northEast b))).
    pose proof (Q.le_max_r (fst p) (fst (northEast b))).
    pose proof (Q.le_max_l (snd p) (snd (northEast b))).
    pose proof (Q.le_max_r (snd p) (snd (northEast b))).
    split; [eapply Qle_trans; eauto|].
    split; [eapply Qle_trans; eauto|].
    split; [eapply Qle_trans; eauto|].
    split; [eapply Qle_trans; eauto|].
    split.
    { constructor; [|exact Hall].
      unfold contains. repeat split; eapply Qle_trans; eauto. }
    split.
    { destruct Ht1 as [Ht|Ht]; [|right; apply Exists_cons_tl; exact Ht].
      destruct (Q.min_spec (fst p) (fst (southWest b))) as [[_ Hm]|[_ Hm]].
      - right. apply Exists_cons_hd. rewrite Ht, Hm. reflexivity.
      - left. rewrite Ht, Hm. reflexivity. }
    split.
    { destruct Ht2 as [Ht|Ht]; [|right; apply Exists_cons_tl; exact Ht].
      destruct (Q.min_spec (snd p) (snd (southWest b))) as [[_ Hm]|[_ Hm]].
      - right. apply Exists_cons_hd. rewrite Ht, Hm. reflexivity.
      - left. rewrite Ht, Hm. reflexivity. }
    split.
    { destruct Ht3 as [Ht|Ht]; [|right; apply Exists_cons_tl; exact Ht].
      destruct (Q.max_spec (fst p) (fst (northEast b))) as [[_ Hm]|[_ Hm]].
      - left. rewrite Ht, Hm. reflexivity.
      - right. apply Exists_cons_hd. rewrite Ht, Hm. reflexivity. }
    { destruct Ht4 as [Ht|Ht]; [|right; apply Exists_cons_tl; exact Ht].
      destruct (Q.max_spec (snd p) (snd (northEast b))) as [[_ Hm]|[_ Hm]].
      - left. rewrite Ht, Hm. reflexivity.
      - right. apply Exists_cons_hd. rewrite Ht, Hm. reflexivity. }
Qed.

(** The bounds of a non-empty list of points. *)
Lemma latLngBounds_nonempty (p : Q * Q) (pts : list (Q * Q)) :
  exists b,
    latLngBounds (p :: pts) = Some b
    /\ Forall (contains b) (p :: pts)
    /\ tight b (p :: pts).
Proof.
  unfold latLngBounds. cbn [fold_left extend].
  destruct (fold_extend pts {| southWest := p; northEast := p |})
    as (b & Hfold & Hsw1 & Hsw2 & Hne1 & Hne2 & Hall & Ht1 & Ht2 & Ht3 & Ht4).
  cbn [southWest northEast] in *.
  exists b. split; [exact Hfold|]. split.
  - constructor; [|exact Hall]. unfold contains. auto.
  - unfold tight.
    repeat split;
      match goal with
      | H : _ \/ Exists _ pts |- Exists _ (p :: pts) =>
          destruct H as [H|H];
          [apply Exists_cons_hd; symmetry; exact H | apply Exists_cons_tl; exact H]
      end.
Qed.

End Bounds.

(** C4: when there is neither a decoded route coordinate nor a waypoint,
    the bounds are the fixed continental region with latitudes 25 to 49 and
    longitudes -125 to -66; otherwise they are a rectangle that contains
    every decoded route coordinate and the position of every waypoint
    (min-lat <= lat <= max-lat and min-lng <= lng <= max-lng for each of
    them), and each of its four sides passes through a route coordinate or
    a waypoint, so that no smaller rectangle contains them all. *)
Theorem bounds_enclose_all_points (coords : list Coordinate) (ws : list RouteMap.Waypoint) :
  (coords = [] /\ ws = []
   /\ RouteMap.bounds coords ws = Some RouteMap.defaultRegion
   /\ RouteMap.southWest RouteMap.defaultRegion = (25, -125)%Q
   /\ RouteMap.northEast RouteMap.defaultRegion = (49, -66)%Q)
  \/ ((coords <> [] \/ ws <> [])
      /\ exists b,
           RouteMap.bounds coords ws = Some b
           /\ Forall (RouteMap.contains b) coords
           /\ Forall (fun w => RouteMap.contains b (RouteMap.lat w, RouteMap.lng w)) ws
           /\ RouteMap.tight b
                (coords ++ List.map (fun w => (RouteMap.lat w, RouteMap.lng w)) ws)).
Proof.
  unfold RouteMap.bounds.
  destruct (RouteMap.allPoints coords ws) as [|p pts] eqn:E.
  - left. unfold RouteMap.allPoints in E.
    apply app_eq_nil in E as [-> Hws].
    destruct ws; [|discriminate Hws].
    cbn. repeat split.
  - right. split.
    + destruct coords; [right|left; discriminate].
      destruct ws; [discriminate E|discriminate].
    + cbn [length Nat.eqb].
      destruct (latLngBounds_nonempty p pts) as (b & Hb & Hin & Ht).
      exists b. rewrite <- E in Hin, Ht. unfold RouteMap.allPoints in Hin, Ht.
      apply List.Forall_app in Hin as [Hc Hw].
      repeat split; try assumption; try apply Ht.
      apply List.Forall_forall. intros w Hw'.
      eapply List.Forall_forall in Hw; [exact Hw|].
      apply in_map_iff. exists w. split; [reflexivity|exact Hw'].
Qed.

(** ** An empty or absent polyline *)

(** C6, as the code has it: decodePolyline of the empty string returns the
    empty sequence, and for a route whose polyline is empty or absent the
    rendering path takes the empty coordinate list without raising; the
    bounds are then those of the waypoints alone, and the default region
    when there are no waypoints either. *)
Theorem empty_polyline_empty_coordinates (route : RouteMap.Route) :
  RouteMap.falsyString (RouteMap.polyline route) = true ->
  decodePolyline [] = Some (JS.Returns [])
  /\ RouteMap.routeCoordinates route = Some (JS.Returns [])
  /\ RouteMap.routeBounds route
     = Some (JS.Returns (RouteMap.bounds [] (RouteMap.waypoints route)))
  /\ (RouteMap.waypoints route = [] ->
      RouteMap.routeBounds route = Some (JS.Returns (Some RouteMap.defaultRegion))).
Proof.
  intros Hfalsy. unfold RouteMap.routeBounds, RouteMap.routeCoordinates.
  rewrite Hfalsy. cbn. repeat split. intros ->. reflexivity.
Qed.

Lemma empty_polyline_empty_coordinates_witness :
  let route := {| RouteMap.polyline := None; RouteMap.waypoints := [] |} in
  RouteMap.falsyString (RouteMap.polyline route) = true
  /\ RouteMap.routeCoordinates route = Some (JS.Returns [])
  /\ RouteMap.routeBounds route = Some (JS.Returns (Some RouteMap.defaultRegion)).
Proof.
  cbv zeta. split; [reflexivity|].
  pose proof (empty_polyline_empty_coordinates
                {| RouteMap.polyline := None; RouteMap.waypoints := [] |} eq_refl)
    as (_ & Hcoords & _ & Hdefault).
  split; [exact Hcoords | exact (Hdefault eq_refl)].
Defined.

(** C6 as stated fails: a route with the empty polyline and one waypoint at
    (40, -105) gets the empty coordinate list, and its bounds are the
    degenerate rectangle at the waypoint, not the default region. *)
Lemma empty_polyline_bounds_not_default :
  let route := {| RouteMap.polyline := Some [];
                  RouteMap.waypoints :=
                    [ {| RouteMap.name := "Denver"; RouteMap.lat := 40%Q;
                         RouteMap.lng := (-105)%Q; RouteMap.type := "current" |} ] |} in
  RouteMap.falsyString (RouteMap.polyline route) = true
  /\ RouteMap.routeCoordinates route = Some (JS.Returns [])
  /\ RouteMap.routeBounds route
     = Some (JS.Returns (Some {| RouteMap.southWest := (40, -105)%Q;
                                 RouteMap.northEast := (40, -105)%Q |}))
  /\ RouteMap.routeBounds route <> Some (JS.Returns (Some RouteMap.defaultRegion)).
Proof.
  cbv zeta. repeat split. discriminate.
Qed.

(** ** The hours text field *)

Section Hours.

Import TripForm.

Lemma clamp_within (v : Number) :
  v <> NaN -> within 0 70 (mathMin (Finite 70) (mathMax (Finite 0) v)).
Proof.
  intros Hv. destruct v as [| | |q]; [congruence| | |]; cbn [mathMax mathMin].
  - exists (Qmin 70 0). split; [reflexivity|]. split; [discriminate|apply Q.le_min_l].
  - exists 70%Q. split; [reflexivity|]. split; discriminate.
  - exists (Qmin 70 (Qmax 0 q)). split; [reflexivity|]. split.
    + apply Q.min_glb; [discriminate | apply Q.le_max_l].
    + apply Q.le_min_l.
Qed.

Lemma orZero_not_NaN (v : Number) : orZero v <> NaN.
Proof. destruct v as [| | |q]; cbn; try discriminate. destruct (Qeq_bool q 0); discriminate. Qed.

End Hours.

(** C9: whatever string the hours text field holds, and whatever parseFloat
    makes of it, handleCycleHoursChange leaves cycleUsedHours a number
    within [0, 70]; a string that parseFloat turns into NaN gives 0. *)
Theorem cycleUsedHours_clamped (parseFloat : string -> TripForm.Number)
    (text : string) (prev : TripForm.TripFormData) :
  TripForm.within 0 70
    (TripForm.cycleUsedHours (TripForm.handleCycleHoursChange parseFloat text prev))
  /\ (parseFloat text = TripForm.NaN ->
      TripForm.cycleUsedHours (TripForm.handleCycleHoursChange parseFloat text prev)
      = TripForm.Finite 0).
Proof.
  unfold TripForm.handleCycleHoursChange. cbn [TripForm.cycleUsedHours]. split.
  - apply clamp_within, orZero_not_NaN.
  - intros ->. reflexivity.
Qed.

Lemma cycleUsedHours_clamped_witness :
  let parseFloat := fun _ : string => TripForm.NaN in
  let prev := {| TripForm.currentLocation := TripForm.mkLocation None None EmptyString;
                 TripForm.pickupLocation := TripForm.mkLocation None None EmptyString;
                 TripForm.dropoffLocation := TripForm.mkLocation None None EmptyString;
                 TripForm.cycleUsedHours := TripForm.Finite 11 |} in
  parseFloat "abc" = TripForm.NaN
  /\ TripForm.cycleUsedHours (TripForm.handleCycleHoursChange parseFloat "abc" prev)
     = TripForm.Finite 0.
Proof.
  cbv zeta. split; [reflexivity|].
  apply (cycleUsedHours_clamped (fun _ : string => TripForm.NaN) "abc").
  reflexivity.
Defined.

(** ** The response error interceptor *)

(** C10, as the code has it: when response.data.error is present and not
    empty the handler rejects with an Error whose message is that field;
    otherwise, when response.data.detail is present and not empty, with an
    Error whose message is that field; in both cases isApiError is true and
    the status is the response's; otherwise it rejects with the original
    error unchanged. *)
Theorem onRejected_cases (e : Api.AxiosError) :
  (exists msg r,
      Api.dataField Api.error e = Some msg /\ msg <> EmptyString /\ Api.response e = Some r
      /\ Api.onRejected e
         = Api.RejectApi {| Api.message := msg; Api.isApiError := true;
                            Api.apiStatus := Api.status r |})
  \/ (Api.truthyString (Api.dataField Api.error e) = false
      /\ exists msg r,
           Api.dataField Api.detail e = Some msg /\ msg <> EmptyString /\ Api.response e = Some r
           /\ Api.onRejected e
              = Api.RejectApi {| Api.message := msg; Api.isApiError := true;
                                 Api.apiStatus := Api.status r |})
  \/ (Api.truthyString (Api.dataField Api.error e) = false
      /\ Api.truthyString (Api.dataField Api.detail e) = false
      /\ Api.onRejected e = Api.RejectOriginal e).
Proof.
  unfold Api.onRejected, Api.statusOf, Api.dataField.
  destruct (Api.response e) as [r|]; cbn; [|right; right; auto].
  destruct (Api.data r) as [d|]; cbn; [|right; right; auto].
  destruct (Api.error d) as [msg|] eqn:Eerr; cbn.
  - destruct (String.eqb_spec msg EmptyString) as [->|Hne]; cbn.
    + destruct (Api.detail d) as [msg'|] eqn:Edet; cbn; [|right; right; auto].
      destruct (String.eqb_spec msg' EmptyString) as [->|Hne']; cbn; [right; right; auto|].
      right; left. split; [reflexivity|]. exists msg', r. auto.
    + left. exists msg, r. auto.
  - destruct (Api.detail d) as [msg'|] eqn:Edet; cbn; [|right; right; auto].
    destruct (String.eqb_spec msg' EmptyString) as [->|Hne']; cbn; [right; right; auto|].
    right; left. split; [reflexivity|]. exists msg', r. auto.
Qed.

(** C10 as stated fails: with response.data.error present but empty and
    response.data.detail = "Not found." the handler rejects with the message
    "Not found.", not with the error field. *)
Lemma onRejected_empty_error_field :
  let e := {| Api.errorMessage := "Request failed with status code 404";
              Api.response :=
                Some {| Api.data := Some {| Api.error := Some EmptyString;
                                           Api.detail := Some "Not found." |};
                        Api.status := 404 |} |} in
  Api.dataField Api.error e = Some EmptyString
  /\ Api.onRejected e
     = Api.RejectApi {| Api.message := "Not found."; Api.isApiError := true;
                        Api.apiStatus := 404 |}
  /\ Api.onRejected e
     <> Api.RejectApi {| Api.message := EmptyString; Api.isApiError := true;
                         Api.apiStatus := 404 |}.
Proof.
  cbv zeta. repeat split. discriminate.
Qed.

(** * Further properties of the sources *)

(** ** decodePolyline: size of the result and of the scan *)

Section DecoderBounds.

Variable s : list N.

Lemma decodeStep_grows (f : nat) (st st' : DecoderState) :
  decodeStep f s st = Some st' ->
  (index st + 2 <= index st')%nat
  /\ exists n m, points st' = points st ++ [(divE5 n, divE5 m)].
Proof.
  unfold decodeStep. intros H.
  destruct (readDelta f s (index st) 0 0 (reads st)) as [[[i1 r1] rd1]|] eqn:E1;
    [|discriminate].
  cbn in H.
  destruct (readDelta f s i1 0 0 rd1) as [[[i2 r2] rd2]|] eqn:E2; [|discriminate].
  cbn in H. injection H as <-. cbn.
  apply readDelta_last_read in E1 as [H1 _].
  apply readDelta_last_read in E2 as [H2 _].
  split; [lia | eauto].
Qed.

(** The points added by the loop: on the grid, none when the cursor is
    already at the end, and otherwise at most one for every two positions
    left, rounded up. *)
Lemma decodeLoop_adds (fuel f : nat) :
  forall st st' : DecoderState,
    decodeLoop fuel f s st = Some st' ->
    exists more,
      points st' = points st ++ more
      /\ Forall Shape.onGrid more
      /\ (2 * length more <= (length s - index st) + 1)%nat
      /\ ((length s <= index st)%nat -> more = []).
Proof.
  induction fuel as [|fuel IH]; intros st st' H; [discriminate|].
  cbn [decodeLoop] in H.
  destruct (Nat.ltb_spec (index st) (length s)) as [Hlt|Hge].
  - destruct (decodeStep f s st) as [st1|] eqn:E1; [|discriminate].
    cbn in H. apply decodeStep_grows in E1 as (Hidx & n & m & Hp).
    destruct (IH st1 st' H) as (more & Hpts & Hgrid & Hcount & Hnone).
    exists ((divE5 n, divE5 m) :: more). repeat split.
    + rewrite Hpts, Hp, <- app_assoc. reflexivity.
    + constructor; [exists n, m; reflexivity | exact Hgrid].
    + destruct (Nat.le_gt_cases (length s) (index st1)) as [Hend|Hin].
      * rewrite (Hnone Hend). cbn. lia.
      * cbn [length]. lia.
    + lia.
  - injection H as <-. exists []. rewrite app_nil_r.
    repeat split; [constructor | cbn; lia].
Qed.

End DecoderBounds.

(** X1: decodePolyline returns the empty sequence for the empty string and
    for no other string. *)
Theorem decodePolyline_empty_iff (encoded : list N) :
  decodePolyline encoded = Some (JS.Returns []) <-> encoded = [].
Proof.
  split; [|intros ->; reflexivity].
  intros H. destruct encoded as [|c rest]; [reflexivity|]. exfalso.
  destruct (decodeRun_total (c :: rest)) as (st & _ & Hrun & _ & _).
  unfold decodePolyline in H. rewrite Hrun in H. cbn in H.
  unfold decodeRun in Hrun.
  apply decodeLoop_points in Hrun as (more & Hpts & Hmore).
  cbn in Hpts. injection H as H. rewrite Hpts in H.
  apply Hmore; [reflexivity | exact H].
Qed.

(** X2: for every string of n characters decodePolyline returns at most
    (n + 1) / 2 points, each a pair of integer multiples of 1e-5, and the
    scan calls charCodeAt at most n + 2 times, never at an index beyond
    n + 1. *)
Theorem decodePolyline_size_bounds (encoded : list N) :
  exists st,
    decodeRun encoded = Some st
    /\ decodePolyline encoded = Some (JS.Returns (points st))
    /\ (2 * length (points st) <= length encoded + 1)%nat
    /\ Forall Shape.onGrid (points st)
    /\ (length (reads st) <= length encoded + 2)%nat
    /\ Forall (fun i => (i <= length encoded + 1)%nat) (reads st).
Proof.
  destruct (decodeRun_total encoded) as (st & _ & Hrun & Hreads & Hidx).
  exists st. split; [exact Hrun|].
  split; [unfold decodePolyline; rewrite Hrun; reflexivity|].
  pose proof Hrun as Hloop. unfold decodeRun in Hloop.
  apply decodeLoop_adds in Hloop as (more & Hpts & Hgrid & Hcount & _).
  cbn in Hpts, Hcount. rewrite Hpts.
  repeat split.
  - lia.
  - exact Hgrid.
  - rewrite Hreads, length_seq. lia.
  - rewrite Hreads. apply List.Forall_forall. intros i Hi.
    apply in_seq in Hi. lia.
Qed.

(** On a well-formed string the loop stops with the cursor exactly at the
    end. *)
Lemma decodeLoop_wellFormed_index (n : nat) :
  forall (chars pre : list N) (st : DecoderState) (fuel innerFuel : nat),
    (length chars <= n)%nat ->
    PolylineSpec.wellFormedFrom chars false 0 = true ->
    index st = length pre ->
    (n < fuel)%nat ->
    (length (pre ++ chars) < innerFuel)%nat ->
    exists st',
      decodeLoop fuel innerFuel (pre ++ chars) st = Some st'
      /\ index st' = length (pre ++ chars).
Proof.
  induction n as [|n IH]; intros chars pre st fuel innerFuel Hlen Hwf Hidx Hfuel Hinner.
  - destruct chars as [|c chars]; [|cbn in Hlen; lia].
    destruct fuel as [|fuel]; [lia|].
    exists st. cbn [decodeLoop]. rewrite app_nil_r, Hidx, Nat.ltb_irrefl. auto.
  - destruct fuel as [|fuel]; [lia|].
    destruct chars as [|c chars].
    { exists st. cbn [decodeLoop]. rewrite app_nil_r, Hidx, Nat.ltb_irrefl. auto. }
    remember (c :: chars) as cs eqn:Ecs.
    assert (Hcs : cs <> []) by (subst cs; discriminate).
    assert (Hcslen : (0 < length cs)%nat) by (subst cs; cbn; lia).
    rewrite length_app in Hinner.
    destruct (readDelta_wellFormed cs pre false 0 innerFuel 0 0 (reads st))
      as (g1 & rest1 & r1 & rd1 & Hs1 & Hg1 & _ & Hsrc1 & Hwf1 & _);
      [exact Hcs | exact Hwf | reflexivity | cbn; lia | lia |].
    cbn [negb] in Hwf1.
    pose proof (wellFormedFrom_lng_nonempty rest1 Hwf1) as Hrest1.
    assert (Hlen1 : (length cs = length g1 + length rest1)%nat)
      by (rewrite Hs1 at 1; apply length_app).
    destruct (readDelta_wellFormed rest1 (pre ++ g1) true 0 innerFuel 0 0 rd1)
      as (g2 & rest2 & r2 & rd2 & Hs2 & Hg2 & _ & Hsrc2 & Hwf2 & _);
      [exact Hrest1 | exact Hwf1 | reflexivity | cbn; lia | lia |].
    cbn [negb] in Hwf2.
    assert (Hlen2 : (length rest1 = length g2 + length rest2)%nat)
      by (rewrite Hs2 at 1; apply length_app).
    assert (Hg1pos : (0 < length g1)%nat) by (destruct g1; [congruence | cbn; lia]).
    assert (Hg2pos : (0 < length g2)%nat) by (destruct g2; [congruence | cbn; lia]).
    assert (Henc1 : pre ++ cs = (pre ++ g1) ++ rest1)
      by (rewrite Hs1, app_assoc; reflexivity).
    assert (Henc2 : pre ++ cs = ((pre ++ g1) ++ g2) ++ rest2)
      by (rewrite Henc1, Hs2, app_assoc; reflexivity).
    destruct (decodeStep innerFuel (pre ++ cs) st) as [st1|] eqn:Hstep.
    2:{ unfold decodeStep in Hstep. rewrite Hidx, Hsrc1 in Hstep. cbn in Hstep.
        rewrite <- length_app, Henc1, Hsrc2 in Hstep. cbn in Hstep. discriminate. }
    assert (Hidx1 : index st1 = length ((pre ++ g1) ++ g2)).
    { unfold decodeStep in Hstep. rewrite Hidx, Hsrc1 in Hstep. cbn in Hstep.
      rewrite <- length_app, Henc1, Hsrc2 in Hstep. cbn in Hstep.
      injection Hstep as <-. cbn. rewrite <- length_app. reflexivity. }
    destruct (IH rest2 ((pre ++ g1) ++ g2) st1 fuel innerFuel)
      as (st' & Hsrc & Hend);
      [lia | exact Hwf2 | exact Hidx1 | lia | rewrite <- Henc2, length_app; lia |].
    exists st'. split; [|rewrite Henc2; exact Hend].
    cbn [decodeLoop].
    replace (index st <? length (pre ++ cs))%nat with true
      by (symmetry; apply Nat.ltb_lt; rewrite Hidx, length_app; lia).
    rewrite Hstep. cbn. rewrite Henc2. exact Hsrc.
Qed.

(** X3: on a well-formed string the scan reads exactly the characters of
    the string, each once and in order, and never calls charCodeAt at or
    past the end: the cursor stops at the length of the string. *)
Theorem decodePolyline_reads_in_range (encoded : list N) :
  PolylineSpec.wellFormed encoded = true ->
  exists st,
    decodeRun encoded = Some st
    /\ index st = length encoded
    /\ reads st = seq 0 (length encoded)
    /\ Forall (fun i => is_Some (JS.charCodeAt encoded i)) (reads st).
Proof.
  intros Hwf.
  destruct (decodeLoop_wellFormed_index (length encoded) encoded [] initialState
              (S (length encoded)) (S (length encoded)))
    as (st & Hloop & Hend); [lia | exact Hwf | reflexivity | lia | cbn; lia |].
  cbn [app] in Hloop, Hend.
  destruct (decodeRun_total encoded) as (st0 & _ & Hrun & Hreads & _).
  unfold decodeRun in Hrun. rewrite Hloop in Hrun. injection Hrun as <-.
  exists st. rewrite Hend in Hreads. repeat split; try assumption.
  rewrite Hreads. apply List.Forall_forall. intros i Hi. apply in_seq in Hi.
  unfold JS.charCodeAt.
  destruct (lookup_lt_is_Some_2 encoded i ltac:(lia)) as [c Hc].
  rewrite Hc. cbn. eauto.
Qed.

Lemma decodePolyline_reads_in_range_witness :
  PolylineSpec.wellFormed referencePolyline = true
  /\ exists st,
       decodeRun referencePolyline = Some st
       /\ index st = length referencePolyline
       /\ reads st = seq 0 (length referencePolyline)
       /\ Forall (fun i => is_Some (JS.charCodeAt referencePolyline i)) (reads st).
Proof.
  split; [reflexivity|].
  apply (decodePolyline_reads_in_range referencePolyline). reflexivity.
Defined.

(** ** decodePolyline on a concatenation *)

Section Concatenation.

Lemma readValue_app (a b : list N) :
  forall (shift result r' : Z) (rest : list N),
    PolylineSpec.readValue a shift result = Some (r', rest) ->
    PolylineSpec.readValue (a ++ b) shift result = Some (r', rest ++ b).
Proof.
  induction a as [|c a IH]; intros shift result r' rest H; [discriminate|].
  cbn [app PolylineSpec.readValue] in *.
  destruct (Z.of_N c - 63 <? 0); [discriminate|].
  destruct (32 <=? Z.of_N c - 63).
  - apply IH. exact H.
  - injection H as <- <-. reflexivity.
Qed.

Lemma decodeFrom_fuel_mono (fuel : nat) :
  forall (fuel' : nat) (chars : list N) (la lo : Z) pts,
    PolylineSpec.decodeFrom fuel chars la lo = Some pts ->
    (fuel <= fuel')%nat ->
    PolylineSpec.decodeFrom fuel' chars la lo = Some pts.
Proof.
  induction fuel as [|fuel IH]; intros fuel' chars la lo pts H Hle.
  - destruct chars; [|discriminate]. destruct fuel'; exact H.
  - destruct chars as [|c chars]; [destruct fuel'; exact H|].
    destruct fuel' as [|fuel']; [lia|].
    rewrite decodeFrom_step in * by discriminate.
    destruct (PolylineSpec.readValue (c :: chars) 0 0) as [[r1 rest1]|]; [|discriminate].
    cbn in *.
    destruct (PolylineSpec.readValue rest1 0 0) as [[r2 rest2]|]; [|discriminate].
    cbn in *.
    destruct (PolylineSpec.decodeFrom fuel rest2 _ _) as [tail|] eqn:E; [|discriminate].
    rewrite (IH fuel' _ _ _ _ E) by lia. exact H.
Qed.

Lemma wellFormedFrom_app (a b : list N) :
  forall (inLng : bool) (count : nat),
    PolylineSpec.wellFormedFrom a inLng count = true ->
    PolylineSpec.wellFormedFrom (a ++ b) inLng count
    = PolylineSpec.wellFormedFrom b false 0.
Proof.
  induction a as [|c a IH]; intros inLng count H.
  - cbn in H. apply andb_prop in H as [Hl Hc].
    destruct inLng; [discriminate|]. apply Nat.eqb_eq in Hc. subst. reflexivity.
  - cbn [app PolylineSpec.wellFormedFrom] in *.
    apply andb_prop in H as [Hhead Htail]. rewrite Hhead. cbn [andb].
    destruct (95 <=? c)%N; apply IH; exact Htail.
Qed.

Lemma last_cons_default {A : Type} (x d : A) (l : list A) :
  List.last (x :: l) d = List.last l x.
Proof.
  revert x d. induction l as [|y l IH]; intros x d; [reflexivity|].
  change (List.last (x :: y :: l) d) with (List.last (y :: l) d).
  rewrite (IH y d), (IH y x). reflexivity.
Qed.

(** The specification's decoder on a well-formed string followed by more
    characters: the points of the string, then what decoding the rest
    yields from the accumulators reached. *)
Lemma decodeFrom_app (n : nat) :
  forall (a : list N) (la lo : Z),
    (length a <= n)%nat ->
    PolylineSpec.wellFormedFrom a false 0 = true ->
    exists pa la' lo',
      PolylineSpec.decodeFrom n a la lo = Some pa
      /\ List.last pa (divE5 la, divE5 lo) = (divE5 la', divE5 lo')
      /\ forall (b : list N) (m : nat) pb,
           PolylineSpec.decodeFrom m b la' lo' = Some pb ->
           PolylineSpec.decodeFrom (n + m) (a ++ b) la lo = Some (pa ++ pb).
Proof.
  induction n as [|n IH]; intros a la lo Hlen Hwf.
  - destruct a as [|c a]; [|cbn in Hlen; lia].
    exists [], la, lo. repeat split. intros b m pb H. exact H.
  - destruct a as [|c a].
    { exists [], la, lo. repeat split. intros b m pb H.
      cbn [app]. eapply decodeFrom_fuel_mono; [exact H | lia]. }
    remember (c :: a) as cs eqn:Ecs.
    assert (Hcs : cs <> []) by (subst cs; discriminate).
    destruct (readDelta_wellFormed cs [] false 0 (S (length cs)) 0 0 [])
      as (g1 & rest1 & r1 & rd1 & Hs1 & Hg1 & Hspec1 & _ & Hwf1 & _);
      [exact Hcs | exact Hwf | reflexivity | cbn; lia | lia |].
    cbn [negb] in Hwf1.
    pose proof (wellFormedFrom_lng_nonempty rest1 Hwf1) as Hrest1.
    destruct (readDelta_wellFormed rest1 [] true 0 (S (length rest1)) 0 0 [])
      as (g2 & rest2 & r2 & rd2 & Hs2 & Hg2 & Hspec2 & _ & Hwf2 & _);
      [exact Hrest1 | exact Hwf1 | reflexivity | cbn; lia | lia |].
    cbn [negb] in Hwf2.
    assert (Hlen2 : (length rest2 <= n)%nat).
    { assert (length cs = length g1 + length rest1)%nat
        by (rewrite Hs1 at 1; apply length_app).
      assert (length rest1 = length g2 + length rest2)%nat
        by (rewrite Hs2 at 1; apply length_app).
      assert (0 < length g1)%nat by (destruct g1; [congruence | cbn; lia]).
      lia. }
    destruct (IH rest2 (la + PolylineSpec.signedOf r1) (lo + PolylineSpec.signedOf r2)
                Hlen2 Hwf2) as (pa & la' & lo' & Hdec & Hlast & Happ).
    exists ((divE5 (la + PolylineSpec.signedOf r1),
             divE5 (lo + PolylineSpec.signedOf r2)) :: pa), la', lo'.
    repeat split.
    + rewrite decodeFrom_step by exact Hcs.
      rewrite Hspec1. cbn. rewrite Hspec2. cbn. rewrite Hdec. reflexivity.
    + rewrite last_cons_default. exact Hlast.
    + intros b m pb Hb. cbn [Nat.add].
      rewrite decodeFrom_step by (subst cs; discriminate).
      rewrite (readValue_app cs b _ _ _ _ Hspec1). cbn.
      rewrite (readValue_app rest1 b _ _ _ _ Hspec2). cbn.
      rewrite (Happ b m pb Hb). reflexivity.
Qed.

(** Starting the specification's decoder from other accumulators shifts
    the integers that every point is divided from. *)
Lemma decodeFrom_shifted (fuel : nat) :
  forall (chars : list N) (la lo da dl : Z) pts,
    PolylineSpec.decodeFrom fuel chars la lo = Some pts ->
    exists pts',
      PolylineSpec.decodeFrom fuel chars (la + da) (lo + dl) = Some pts'
      /\ Forall2 (Shape.shifted da dl) pts' pts.
Proof.
  induction fuel as [|fuel IH]; intros chars la lo da dl pts H.
  - destruct chars; [|discriminate]. injection H as <-. exists []. split; constructor.
  - destruct chars as [|c chars].
    { injection H as <-. exists []. split; constructor. }
    rewrite decodeFrom_step in * by discriminate.
    destruct (PolylineSpec.readValue (c :: chars) 0 0) as [[r1 rest1]|]; [|discriminate].
    cbn in *.
    destruct (PolylineSpec.readValue rest1 0 0) as [[r2 rest2]|]; [|discriminate].
    cbn in *.
    destruct (PolylineSpec.decodeFrom fuel rest2 _ _) as [tail|] eqn:E; [|discriminate].
    cbn in H. injection H as <-.
    destruct (IH rest2 _ _ da dl tail E) as (tail' & Htail & Hrel).
    replace (la + da + PolylineSpec.signedOf r1)
      with (la + PolylineSpec.signedOf r1 + da) by lia.
    replace (lo + dl + PolylineSpec.signedOf r2)
      with (lo + PolylineSpec.signedOf r2 + dl) by lia.
    rewrite Htail. cbn. eexists. split; [reflexivity|].
    constructor; [|exact Hrel].
    exists (la + PolylineSpec.signedOf r1), (lo + PolylineSpec.signedOf r2).
    split; reflexivity.
Qed.

End Concatenation.

(** X4: for well-formed strings a and b, decodePolyline (a ++ b) is the
    polyline of a followed by one point for every point of b; where the
    last point of a is (la / 1e5, lo / 1e5) for the integers la and lo
    (both 0 when a is empty) and the point of b is (n / 1e5, m / 1e5) for
    the integers n and m, that point is ((n + la) / 1e5, (m + lo) / 1e5).
    The integers are added first and the sum is divided, as the code does
    it; nothing is said of the sum of the two quotients. *)
Theorem decodePolyline_concat (a b : list N) :
  PolylineSpec.wellFormed a = true ->
  PolylineSpec.wellFormed b = true ->
  exists pa pb pb' la lo,
    decodePolyline a = Some (JS.Returns pa)
    /\ decodePolyline b = Some (JS.Returns pb)
    /\ decodePolyline (a ++ b) = Some (JS.Returns (pa ++ pb'))
    /\ List.last pa (divE5 0, divE5 0) = (divE5 la, divE5 lo)
    /\ Forall2 (Shape.shifted la lo) pb' pb.
Proof.
  intros Ha Hb.
  assert (Hab : PolylineSpec.wellFormed (a ++ b) = true).
  { unfold PolylineSpec.wellFormed in *. rewrite (wellFormedFrom_app a b false 0 Ha).
    exact Hb. }
  destruct (decodePolyline_refines a Ha) as (pa & Hspec_a & Hsrc_a).
  destruct (decodePolyline_refines b Hb) as (pb & Hspec_b & Hsrc_b).
  destruct (decodePolyline_refines (a ++ b) Hab) as (pab & Hspec_ab & Hsrc_ab).
  unfold PolylineSpec.decode in *.
  destruct (decodeFrom_app (length a) a 0 0 (Nat.le_refl _) Ha)
    as (pa0 & la & lo & Hdec & Hlast & Happ).
  rewrite Hspec_a in Hdec. injection Hdec as <-.
  destruct (decodeFrom_shifted (length b) b 0 0 la lo pb Hspec_b)
    as (pb' & Hpb' & Hrel).
  cbn [Z.add] in Hpb'.
  specialize (Happ b (length b) pb' Hpb').
  rewrite <- length_app, Hspec_ab in Happ. injection Happ as ->.
  exists pa, pb, pb', la, lo. repeat split; assumption.
Qed.

Lemma decodePolyline_concat_witness :
  PolylineSpec.wellFormed (codeUnits "_pR_pR") = true
  /\ PolylineSpec.wellFormed (codeUnits "_af@_af@") = true
  /\ exists pa pb pb' la lo,
       decodePolyline (codeUnits "_pR_pR") = Some (JS.Returns pa)
       /\ decodePolyline (codeUnits "_af@_af@") = Some (JS.Returns pb)
       /\ decodePolyline (codeUnits "_pR_pR" ++ codeUnits "_af@_af@")
          = Some (JS.Returns (pa ++ pb'))
       /\ List.last pa (divE5 0, divE5 0) = (divE5 la, divE5 lo)
       /\ Forall2 (Shape.shifted la lo) pb' pb.
Proof.
  split; [reflexivity|]. split; [reflexivity|].
  apply (decodePolyline_concat (codeUnits "_pR_pR") (codeUnits "_af@_af@"));
    reflexivity.
Defined.

(** ** RouteMap: markers and the centre *)

(** X5: the stops that get a marker are exactly the stops whose latitude
    and longitude are both neither null nor 0 and whose type is neither
    PICKUP nor DROPOFF; so every marker has a position (the non-null
    assertions on [stop.lat] and [stop.lng] are never wrong), and the
    filter keeps the order of the stops. *)
Theorem stop_markers_exact (stops : list RouteMap.Stop) :
  (forall stop,
      In stop (RouteMap.classifyStopsForMap stops) <->
      In stop stops
      /\ (exists la, RouteMap.stopLat stop = Some la /\ ~ (la == 0)%Q)
      /\ (exists lo, RouteMap.stopLng stop = Some lo /\ ~ (lo == 0)%Q)
      /\ RouteMap.stopType stop <> "PICKUP" /\ RouteMap.stopType stop <> "DROPOFF")
  /\ Forall (fun stop => is_Some (RouteMap.stopLat stop) /\ is_Some (RouteMap.stopLng stop))
       (RouteMap.classifyStopsForMap stops)
  /\ sublist (RouteMap.classifyStopsForMap stops) stops.
Proof.
  split; [intros stop; apply classifyStopsForMap_keeps|]. split.
  - apply List.Forall_forall. intros stop H.
    apply classifyStopsForMap_keeps in H as (_ & (la & Hla & _) & (lo & Hlo & _) & _).
    rewrite Hla, Hlo. split; eauto.
  - unfold RouteMap.classifyStopsForMap.
    induction stops as [|stop stops IH]; cbn [List.filter]; [constructor|].
    destruct (RouteMap.stopOnMap stop); [apply sublist_skip | apply sublist_cons]; exact IH.
Qed.

(** X6: when the route has a waypoint, or has neither waypoints nor
    decoded coordinates, the initial centre of the map lies within the
    bounds the map is fitted to. *)
Theorem center_within_bounds (coords : list Coordinate) (ws : list RouteMap.Waypoint) :
  ws <> [] \/ coords = [] ->
  exists b,
    RouteMap.bounds coords ws = Some b
    /\ RouteMap.contains b (MapCenter.center ws).
Proof.
  intros H. destruct ws as [|w ws].
  - destruct H as [H| ->]; [congruence|].
    exists RouteMap.defaultRegion. split; [reflexivity|].
    unfold RouteMap.contains, Qle. cbn. lia.
  - unfold RouteMap.bounds.
    assert (Hin : In (MapCenter.center (w :: ws)) (RouteMap.allPoints coords (w :: ws))).
    { unfold RouteMap.allPoints. apply in_or_app. right. left. reflexivity. }
    destruct (RouteMap.allPoints coords (w :: ws)) as [|p pts] eqn:E; [destruct Hin|].
    cbn [length Nat.eqb].
    destruct (latLngBounds_nonempty p pts) as (b & Hb & Hall & _).
    exists b. split; [exact Hb|].
    rewrite List.Forall_forall in Hall. apply Hall. exact Hin.
Qed.

Lemma center_within_bounds_witness :
  let ws := [ {| RouteMap.name := "Denver"; RouteMap.lat := 40%Q;
                 RouteMap.lng := (-105)%Q; RouteMap.type := "current" |} ] in
  (ws <> [] \/ @nil Coordinate = [])
  /\ exists b,
       RouteMap.bounds [] ws = Some b /\ RouteMap.contains b (MapCenter.center ws).
Proof.
  cbv zeta. split; [right; reflexivity|].
  apply (center_within_bounds []). right. reflexivity.
Defined.

(** ** The lookup tables *)

Section Tables.

Import Markers Labels.

Lemma orElse_truthy (v : Value) (d : string) :
  d <> EmptyString -> truthy (orElse v d) = true.
Proof.
  intros Hd. unfold orElse. destruct (truthy v) eqn:E; [exact E|].
  cbn. apply negb_true_iff. apply String.eqb_neq. exact Hd.
Qed.

Lemma stopNames_unknown (t : string) : t ∉ recognized -> stopNames !! t = None.
Proof.
  unfold recognized, stopNames. intros H.
  repeat (apply not_elem_of_cons in H as [? H]).
  rewrite !lookup_insert_ne by congruence.
  apply lookup_singleton_ne. congruence.
Qed.

End Tables.

(** X7: a stop type that is neither one of the five recognized types nor
    the name of a property of Object.prototype is drawn with the default
    colour '#000000' and the generic glyph, and is labelled with the type
    string itself. *)
Theorem unknown_stop_type_defaults (t : string) :
  t ∉ Markers.recognized -> t ∉ Markers.objectPrototype ->
  Markers.getStopTypeColor t = JS.Returns (Markers.Str "#000000")
  /\ Markers.stopIcon t
     = JS.Returns {| Markers.iconColor := Markers.Str "#000000";
                     Markers.iconLabel := Markers.Str "•" |}
  /\ Labels.getStopTypeName t = Markers.Str t.
Proof.
  intros Hrec Hproto.
  destruct (stop_type_fallback t Hrec Hproto) as [Hcolor Hicon].
  repeat split; try assumption.
  unfold Labels.getStopTypeName, Markers.getProperty.
  rewrite (stopNames_unknown t Hrec).
  rewrite bool_decide_eq_false_2 by exact Hproto. reflexivity.
Qed.

Lemma unknown_stop_type_defaults_witness :
  ("WEIGH_STATION" ∉ Markers.recognized)
  /\ ("WEIGH_STATION" ∉ Markers.objectPrototype)
  /\ Markers.getStopTypeColor "WEIGH_STATION" = JS.Returns (Markers.Str "#000000")
  /\ Labels.getStopTypeName "WEIGH_STATION" = Markers.Str "WEIGH_STATION".
Proof.
  assert (H1 : "WEIGH_STATION" ∉ Markers.recognized).
  { unfold Markers.recognized. intros H.
    repeat (apply elem_of_cons in H as [H|H]; [discriminate|]).
    apply elem_of_nil in H. exact H. }
  assert (H2 : "WEIGH_STATION" ∉ Markers.objectPrototype).
  { unfold Markers.objectPrototype. intros H.
    repeat (apply elem_of_cons in H as [H|H]; [discriminate|]).
    apply elem_of_nil in H. exact H. }
  split; [exact H1|]. split; [exact H2|].
  destruct (unknown_stop_type_defaults "WEIGH_STATION" H1 H2) as (Hc & _ & Hn).
  split; [exact Hc | exact Hn].
Defined.

(** X8: no label or colour is ever blank: for every string the colour of
    a stop type and of a duty status is a truthy value, and for every
    non-empty string so is the display name of a stop type and of a duty
    status. *)
Theorem labels_never_blank (t : string) :
  (exists c, Markers.getStopTypeColor t = JS.Returns c /\ Markers.truthy c = true)
  /\ Markers.truthy (Labels.getDutyStatusColor t) = true
  /\ (t = EmptyString
      \/ (Markers.truthy (Labels.getStopTypeName t) = true
          /\ Markers.truthy (Labels.getDutyStatusName t) = true)).
Proof.
  split; [|split].
  - eexists. split; [reflexivity|]. apply orElse_truthy. discriminate.
  - apply orElse_truthy. discriminate.
  - destruct (String.eqb_spec t EmptyString) as [->|Hne]; [left; reflexivity|].
    right. split; apply orElse_truthy; exact Hne.
Qed.

(** X9: different stop types are drawn in different colours, and so are
    different duty statuses; the display names of the stop types differ
    too. *)
Theorem table_entries_distinct :
  NoDup (List.map Markers.getStopTypeColor Markers.recognized)
  /\ NoDup (List.map Labels.getDutyStatusColor Labels.dutyStatuses)
  /\ NoDup (List.map Labels.getStopTypeName Markers.recognized)
  /\ NoDup (List.map Labels.getDutyStatusName Labels.dutyStatuses).
Proof.
  repeat split; vm_compute;
    repeat (apply NoDup_cons; split;
            [rewrite ?not_elem_of_cons; repeat split;
             first [discriminate | apply not_elem_of_nil] |]);
    apply NoDup_nil; exact I.
Qed.

(** ** TripForm: the wizard *)

Section WizardFacts.

Import TripForm Wizard.

Variable parseFloat : string -> Number.

Ltac use_step_facts :=
  repeat match goal with
         | H : (?a < ?b)%Z -> _ |- _ =>
             first [ specialize (H ltac:(lia)) | clear H ]
         end.

Ltac step_cases st :=
  let fd := fresh "fd" in
  let ve := fresh "ve" in
  let step := fresh "step" in
  destruct st as [fd ve step];
  unfold earlierStepsValid in *; cbn [currentStep formData validationError] in *;
  match goal with
  | H : 1 <= step <= 4 /\ _ |- _ =>
      let Hr := fresh "Hrange" in
      destruct H as (Hr & ? & ? & ?);
      assert (step = 1 \/ step = 2 \/ step = 3 \/ step = 4) as [-> | [-> | [-> | ->]]] by lia
  end.

Lemma handleNext_keeps (st : State) :
  earlierStepsValid st -> earlierStepsValid (handleNext st).
Proof.
  intros H. step_cases st; use_step_facts;
    unfold handleNext, validateStep, setValidationError, setCurrentStep;
    cbn [currentStep formData validationError Z.eqb Pos.eqb];
    repeat match goal with
           | |- context [isValidLocation (?f ?x)] =>
               is_var x; destruct (isValidLocation (f x)) eqn:?
           | |- context [lessThan ?a ?b] => destruct (lessThan a b)
           end;
    cbn; repeat split; intros; try lia; try assumption.
Qed.

Lemma dispatch_keeps (ev : Event) (st : State) :
  earlierStepsValid st -> earlierStepsValid (fst (dispatch parseFloat ev st)).
Proof.
  intros H. destruct ev as [value|text|value| | |]; cbn [dispatch].
  - step_cases st; use_step_facts; cbn; repeat split; intros; try lia; assumption.
  - step_cases st; use_step_facts; cbn; repeat split; intros; try lia; assumption.
  - step_cases st; use_step_facts; cbn; repeat split; intros; try lia; assumption.
  - destruct (currentStep st <? 4); [apply handleNext_keeps; exact H | exact H].
  - step_cases st; use_step_facts; cbn; repeat split; intros; try lia; assumption.
  - unfold handleSubmit. destruct (Z.ltb_spec (currentStep st) 4) as [Hlt|Hge].
    + apply handleNext_keeps. exact H.
    + step_cases st; try lia. use_step_facts.
      unfold validateStep, setValidationError.
      cbn [currentStep formData validationError Z.eqb Pos.eqb].
      destruct (lessThan _ _ || lessThan _ _); cbn; repeat split; intros; try lia; assumption.
Qed.

Lemma run_from_keeps (events : list Event) :
  forall st,
    earlierStepsValid st ->
    earlierStepsValid (fold_left (fun st ev => fst (dispatch parseFloat ev st)) events st).
Proof.
  induction events as [|ev events IH]; intros st H; [exact H|].
  cbn [fold_left]. apply IH. apply dispatch_keeps. exact H.
Qed.

Lemma initial_valid : earlierStepsValid initial.
Proof. unfold earlierStepsValid. cbn. repeat split; intros; lia. Qed.

End WizardFacts.

(** X10: whatever the user does with the rendered form, the wizard stays on
    a step between 1 and 4, and the locations of all the steps before the
    current one are valid. *)
Theorem wizard_invariant (parseFloat : string -> TripForm.Number)
    (events : list Wizard.Event) :
  Wizard.earlierStepsValid (Wizard.run parseFloat events).
Proof.
  unfold Wizard.run. apply run_from_keeps. apply initial_valid.
Qed.

Section WizardSubmit.

Import TripForm Wizard.

Lemma hours_check (h : Number) :
  lessThan h (Finite 0) || lessThan (Finite 70) h = false ->
  h = NaN \/ within 0 70 h.
Proof.
  intros H. apply orb_false_iff in H as [Hlo Hhi].
  destruct h as [| | |q]; [left; reflexivity | discriminate | discriminate |].
  right. exists q. split; [reflexivity|].
  cbn in Hlo, Hhi. apply negb_false_iff in Hlo, Hhi.
  apply Qle_bool_iff in Hlo, Hhi. split; assumption.
Qed.

Lemma dispatch_submits (parseFloat : string -> Number) (ev : Event) (st : State)
    (data : TripFormData) :
  snd (dispatch parseFloat ev st) = Some data ->
  ev = FormSubmitted
  /\ 4 <= currentStep st
  /\ data = formData st
  /\ fst (validateStep (currentStep st) st) = true.
Proof.
  destruct ev as [value|text|value| | |]; cbn [dispatch].
  - destruct (renderedField (currentStep st)); discriminate.
  - destruct (currentStep st =? 4); discriminate.
  - destruct (currentStep st =? 4); discriminate.
  - destruct (currentStep st <? 4); discriminate.
  - destruct (currentStep st =? 1); discriminate.
  - unfold handleSubmit. destruct (Z.ltb_spec (currentStep st) 4) as [Hlt|Hge];
      [discriminate|].
    destruct (validateStep (currentStep st) st) as [ok st'].
    cbn. destruct ok; [|discriminate]. intros [= <-]. auto.
Qed.

End WizardSubmit.

(** X11: onSubmit is only ever called from a form submission on step 4, with
    the current form data, and then all three locations are valid and the
    cycle hours are NaN or a number within [0, 70]. *)
Theorem submitted_data_is_valid (parseFloat : string -> TripForm.Number)
    (events : list Wizard.Event) (ev : Wizard.Event) (data : TripForm.TripFormData) :
  snd (Wizard.dispatch parseFloat ev (Wizard.run parseFloat events)) = Some data ->
  ev = Wizard.FormSubmitted
  /\ Wizard.currentStep (Wizard.run parseFloat events) = 4
  /\ data = Wizard.formData (Wizard.run parseFloat events)
  /\ Wizard.isValidLocation (TripForm.currentLocation data) = true
  /\ Wizard.isValidLocation (TripForm.pickupLocation data) = true
  /\ Wizard.isValidLocation (TripForm.dropoffLocation data) = true
  /\ (TripForm.cycleUsedHours data = TripForm.NaN
      \/ TripForm.within 0 70 (TripForm.cycleUsedHours data)).
Proof.
  intros H. apply dispatch_submits in H as (-> & Hstep & -> & Hok).
  pose proof (run_from_keeps parseFloat events Wizard.initial initial_valid) as Hinv.
  fold (Wizard.run parseFloat events) in Hinv.
  destruct Hinv as (Hrange & Hcur & Hpick & Hdrop).
  assert (Hfour : Wizard.currentStep (Wizard.run parseFloat events) = 4) by lia.
  rewrite Hfour in *.
  repeat split; try reflexivity; try (first [apply Hcur | apply Hpick | apply Hdrop]; lia).
  unfold Wizard.validateStep in Hok. cbn [Z.eqb Pos.eqb] in Hok.
  apply hours_check.
  destruct (Wizard.lessThan _ _ || Wizard.lessThan _ _); [discriminate | reflexivity].
Qed.

Lemma submitted_data_is_valid_witness :
  let parseFloat := fun _ : string => TripForm.NaN in
  let start := TripForm.mkLocation None None "Denver, CO" in
  let pickup := TripForm.mkLocation (Some 41.8781%Q) (Some (-87.6298)%Q) EmptyString in
  let dropoff := TripForm.mkLocation None None "Dallas, TX" in
  let events := [Wizard.LocationEdited start; Wizard.ContinueClicked;
                 Wizard.LocationEdited pickup; Wizard.ContinueClicked;
                 Wizard.LocationEdited dropoff; Wizard.ContinueClicked;
                 Wizard.SliderMoved (TripForm.Finite 12.5)] in
  let data := {| TripForm.currentLocation := start; TripForm.pickupLocation := pickup;
                 TripForm.dropoffLocation := dropoff;
                 TripForm.cycleUsedHours := TripForm.Finite 12.5 |} in
  snd (Wizard.dispatch parseFloat Wizard.FormSubmitted (Wizard.run parseFloat events))
    = Some data
  /\ Wizard.isValidLocation (TripForm.currentLocation data) = true
  /\ Wizard.isValidLocation (TripForm.dropoffLocation data) = true.
Proof.
  cbv zeta.
  assert (H : snd (Wizard.dispatch (fun _ : string => TripForm.NaN) Wizard.FormSubmitted
                     (Wizard.run (fun _ : string => TripForm.NaN)
                        [Wizard.LocationEdited (TripForm.mkLocation None None "Denver, CO");
                         Wizard.ContinueClicked;
                         Wizard.LocationEdited
                           (TripForm.mkLocation (Some 41.8781%Q) (Some (-87.6298)%Q) EmptyString);
                         Wizard.ContinueClicked;
                         Wizard.LocationEdited (TripForm.mkLocation None None "Dallas, TX");
                         Wizard.ContinueClicked;
                         Wizard.SliderMoved (TripForm.Finite 12.5)]))
              = Some {| TripForm.currentLocation := TripForm.mkLocation None None "Denver, CO";
                        TripForm.pickupLocation :=
                          TripForm.mkLocation (Some 41.8781%Q) (Some (-87.6298)%Q) EmptyString;
                        TripForm.dropoffLocation := TripForm.mkLocation None None "Dallas, TX";
                        TripForm.cycleUsedHours := TripForm.Finite 12.5 |})
    by (vm_compute; reflexivity).
  split; [exact H|].
  destruct (submitted_data_is_valid _ _ _ _ H) as (_ & _ & _ & Hc & _ & Hd & _).
  split; [exact Hc | exact Hd].
Defined.

Section Trim.

Import Wizard.

Lemma stripPrefix_Some (p : list N) :
  forall l rest, stripPrefix p l = Some rest -> l = p ++ rest.
Proof.
  induction p as [|a p IH]; intros l rest H; cbn [stripPrefix] in H.
  - injection H as ->. reflexivity.
  - destruct l as [|b l]; [discriminate|].
    destruct (N.eqb_spec a b) as [->|]; [|discriminate].
    cbn [app]. f_equal. apply IH. exact H.
Qed.

Lemma dropFirst_Some (chars : list (list N)) (l rest : list N) :
  dropFirst chars l = Some rest -> exists w, In w chars /\ l = w ++ rest.
Proof.
  induction chars as [|w chars IH]; cbn [dropFirst]; [discriminate|].
  destruct (stripPrefix w l) as [r|] eqn:E.
  - intros H. injection H as ->. exists w. split; [left; reflexivity|].
    apply stripPrefix_Some. exact E.
  - intros H. destruct (IH H) as (w' & Hin & Hl). exists w'. split; [right|]; assumption.
Qed.

Lemma blankBy_app (chars : list (list N)) (a b : list N) :
  blankBy chars a -> blankBy chars b -> blankBy chars (a ++ b).
Proof.
  induction 1 as [|w rest Hw Hrest IH]; intros Hb; [exact Hb|].
  rewrite <- List.app_assoc. constructor; [exact Hw | apply IH; exact Hb].
Qed.

Lemma blankBy_rev (chars : list (list N)) (l : list N) :
  blankBy (List.map (@List.rev N) chars) l -> blankBy chars (List.rev l).
Proof.
  induction 1 as [|w rest Hw Hrest IH]; [constructor|].
  rewrite List.rev_app_distr. apply blankBy_app; [exact IH|].
  apply in_map_iff in Hw as (w0 & <- & Hw0). rewrite List.rev_involutive.
  rewrite <- (List.app_nil_r w0). constructor; [exact Hw0 | constructor].
Qed.

(** What [trimStartBy] removes is a sequence of characters of [chars]. *)
Lemma trimStartBy_removes (chars : list (list N)) (fuel : nat) :
  forall l, exists removed,
    blankBy chars removed /\ l = removed ++ trimStartBy chars fuel l.
Proof.
  induction fuel as [|fuel IH]; intros l; cbn [trimStartBy].
  - exists []. split; [constructor | reflexivity].
  - destruct (dropFirst chars l) as [rest|] eqn:E.
    + apply dropFirst_Some in E as (w & Hw & ->).
      destruct (IH rest) as (removed & Hblank & Hrest).
      exists (w ++ removed). split; [constructor; assumption|].
      rewrite <- List.app_assoc, <- Hrest. reflexivity.
    + exists []. split; [constructor | reflexivity].
Qed.

(** No white-space character begins with another one, so that the first
    character of a blank text is the one that is dropped. *)
Lemma dropFirst_whiteSpace (w rest : list N) :
  In w whiteSpace -> dropFirst whiteSpace (w ++ rest) = Some rest.
Proof.
  unfold whiteSpace. cbn [In]. intros H.
  repeat (destruct H as [<-|H]; [reflexivity|]). destruct H.
Qed.

Lemma whiteSpace_length (w : list N) : In w whiteSpace -> (0 < length w)%nat.
Proof.
  unfold whiteSpace. cbn [In]. intros H.
  repeat (destruct H as [<-|H]; [cbn; lia|]). destruct H.
Qed.

Lemma trimStartBy_blank (fuel : nat) (l : list N) :
  blank l -> (length l <= fuel)%nat -> trimStartBy whiteSpace fuel l = [].
Proof.
  intros H. revert fuel. induction H as [|w rest Hw Hrest IH]; intros fuel Hlen.
  - destruct fuel; reflexivity.
  - pose proof (whiteSpace_length w Hw) as Hpos.
    rewrite length_app in Hlen.
    destruct fuel as [|fuel]; [lia|].
    cbn [trimStartBy]. rewrite (dropFirst_whiteSpace w rest Hw).
    apply IH. lia.
Qed.

Lemma trimEnd_nil (l : list N) : trimEnd l = [] -> blank l.
Proof.
  unfold trimEnd. intros H.
  destruct (trimStartBy_removes (List.map (@List.rev N) whiteSpace) (length l) (List.rev l))
    as (removed & Hblank & Hl).
  apply (f_equal (@List.rev N)) in H. rewrite List.rev_involutive in H.
  change (List.rev (@nil N)) with (@nil N) in H.
  rewrite H, List.app_nil_r in Hl. rewrite <- Hl in Hblank.
  apply blankBy_rev in Hblank. rewrite List.rev_involutive in Hblank. exact Hblank.
Qed.

Lemma trim_nil (l : list N) : trim l = [] <-> blank l.
Proof.
  unfold trim. split.
  - intros H. apply trimEnd_nil in H.
    destruct (trimStartBy_removes whiteSpace (length l) l) as (removed & Hblank & Hl).
    rewrite Hl. apply blankBy_app; [exact Hblank | exact H].
  - intros H. unfold trimStart. rewrite (trimStartBy_blank _ _ H (Nat.le_refl _)).
    reflexivity.
Qed.

End Trim.

(** X12: a location whose latitude and longitude are each a number or null
    is valid exactly when both are not null, or its address holds
    something other than white space, where white space is every character
    that String.prototype.trim removes (space, tab, line breaks, and those
    outside ASCII such as the no-break space and the em space); an address
    of white space only does not count. *)
Theorem isValidLocation_spec (loc : TripForm.LocationInput) :
  Wizard.isValidLocation loc = true <->
  (TripForm.locLat loc <> None /\ TripForm.locLng loc <> None)
  \/ ~ Wizard.blank (Wizard.utf8 (TripForm.address loc)).
Proof.
  unfold Wizard.isValidLocation. cbv zeta.
  rewrite orb_true_iff, andb_true_iff, !negb_true_iff, !bool_decide_eq_false.
  rewrite <- trim_nil.
  destruct (Wizard.trim (Wizard.utf8 (TripForm.address loc))) as [|c rest].
  - split; [intros [H|H]; [left; exact H | discriminate H]
           | intros [H|H]; [left; exact H | contradiction]].
  - split; intros _; right; [discriminate | reflexivity].
Qed.

Section Remaining.

Import TripForm Wizard.

Lemma remaining_of_clamped (q : Q) :
  (0 <= q <= 70)%Q ->
  within 0 70 (cycleRemaining (Finite q))
  /\ (remainingColor (Finite q) = "#ef4444" <-> (60 < q)%Q).
Proof.
  intros [Hlo Hhi]. split.
  - exists (70 - q)%Q. split; [reflexivity|].
    destruct q as [a b]. unfold Qle, Qminus, Qplus, Qopp in *. cbn in *. split; lia.
  - unfold remainingColor. cbn [cycleRemaining lessThan].
    destruct (Qle_bool 10 (70 - q)) eqn:E; cbn [negb].
    + apply Qle_bool_iff in E. split; [discriminate|]. intros Hlt. exfalso.
      destruct q as [a b]. unfold Qle, Qlt, Qminus, Qplus, Qopp in *. cbn in *. lia.
    + split; [|reflexivity]. intros _.
      apply Qnot_le_lt. intros Hle.
      assert (Hc : Qle_bool 10 (70 - q) = true).
      { apply Qle_bool_iff.
        destruct q as [a b]. unfold Qle, Qminus, Qplus, Qopp in *. cbn in *. lia. }
      congruence.
Qed.

End Remaining.

(** X13: after the hours text field has been edited, whatever was typed,
    the hours remaining in the cycle (70 minus the hours used) are a
    number within [0, 70], never negative, and the badge is red exactly
    when more than 60 hours are used. *)
Theorem cycleRemaining_after_typing (parseFloat : string -> TripForm.Number)
    (text : string) (prev : TripForm.TripFormData) :
  exists q,
    TripForm.cycleUsedHours (TripForm.handleCycleHoursChange parseFloat text prev)
      = TripForm.Finite q
    /\ TripForm.within 0 70 (Wizard.cycleRemaining (TripForm.Finite q))
    /\ (Wizard.remainingColor (TripForm.Finite q) = "#ef4444" <-> (60 < q)%Q).
Proof.
  unfold TripForm.handleCycleHoursChange. cbn [TripForm.cycleUsedHours].
  destruct (clamp_within (TripForm.orZero (parseFloat text)) (orZero_not_NaN _))
    as (q & Hq & Hrange).
  exists q. split; [exact Hq|]. apply remaining_of_clamped. exact Hrange.
Qed.

(** ** App: what the user sees after submitting *)

Section AppFacts.

Import App.

Lemma onRejected_api_message (e : Api.AxiosError) (a : Api.ApiError) :
  Api.onRejected e = Api.RejectApi a ->
  Api.message a <> EmptyString /\ Api.isApiError a = true.
Proof.
  unfold Api.onRejected.
  destruct (Api.dataField Api.error e) as [m|] eqn:Eerr; cbn [Api.truthyString].
  - destruct (String.eqb_spec m EmptyString) as [->|Hne]; cbn [negb].
    + destruct (Api.dataField Api.detail e) as [m'|]; cbn [Api.truthyString];
        [|discriminate].
      destruct (String.eqb_spec m' EmptyString) as [->|Hne']; cbn [negb]; [discriminate|].
      intros [= <-]. cbn. auto.
    + intros [= <-]. cbn. auto.
  - destruct (Api.dataField Api.detail e) as [m'|]; cbn [Api.truthyString];
      [|discriminate].
    destruct (String.eqb_spec m' EmptyString) as [->|Hne']; cbn [negb]; [discriminate|].
    intros [= <-]. cbn. auto.
Qed.

Lemma errorText_not_blank (err : Thrown) :
  (thrownIsApiError err = true -> thrownMessage err <> EmptyString) ->
  errorText err <> EmptyString.
Proof.
  intros Hapi. unfold errorText.
  destruct (bool_decide (code err = Some "ECONNABORTED")); [discriminate|].
  destruct (includes (thrownMessage err) "Unable to calculate route"); [discriminate|].
  destruct (thrownIsApiError err); [apply Hapi; reflexivity|].
  destruct (String.eqb_spec (thrownMessage err) EmptyString) as [Heq|Hne]; cbn [negb];
    [discriminate | exact Hne].
Qed.

End AppFacts.

(** X14: when the request ends, handleSubmit leaves isLoading false.  A
    response with a body stores the trip and shows no error; an empty
    response or a failed request keeps the previous trip result and shows
    an error message that is not blank. *)
Theorem handleSubmit_outcomes (R : Type) (outcome : App.Outcome R) (st : App.State R) :
  App.isLoading (App.handleSubmit outcome st) = false
  /\ match outcome with
     | App.Resolved (Some result) =>
         App.tripResult (App.handleSubmit outcome st) = Some result
         /\ App.error (App.handleSubmit outcome st) = None
     | _ =>
         App.tripResult (App.handleSubmit outcome st) = App.tripResult st
         /\ exists msg,
              App.error (App.handleSubmit outcome st) = Some msg /\ msg <> EmptyString
     end.
Proof.
  split; [reflexivity|].
  destruct outcome as [[result|]|axiosCode e]; cbn.
  - split; reflexivity.
  - split; [reflexivity|]. eexists. split; [reflexivity|]. discriminate.
  - split; [reflexivity|]. eexists. split; [reflexivity|].
    apply errorText_not_blank.
    destruct (Api.onRejected e) as [a|orig] eqn:E; cbn; [|discriminate].
    intros _. apply (onRejected_api_message e a E).
Qed.

(** X15: when the error response carries a non-empty error field, the user
    sees that text as it is, unless it contains 'Unable to calculate
    route', in which case the explanation about unreachable locations is
    shown; the code of the axios error plays no part. *)
Theorem api_error_is_shown (R : Type) (axiosCode : option string) (e : Api.AxiosError)
    (msg : string) (st : App.State R) :
  Api.dataField Api.error e = Some msg ->
  msg <> EmptyString ->
  App.error (App.handleSubmit (App.Failed axiosCode e) st)
  = Some (if App.includes msg "Unable to calculate route" then App.routeText else msg).
Proof.
  intros Hfield Hne. cbn. f_equal.
  unfold Api.onRejected. rewrite Hfield. cbn [Api.truthyString].
  destruct (String.eqb_spec msg EmptyString) as [Heq|_]; [congruence|].
  cbn [negb App.asThrown Api.message Api.isApiError default from_option].
  unfold App.errorText. cbn [App.code App.thrownMessage App.thrownIsApiError].
  change (id msg) with msg.
  rewrite bool_decide_eq_false_2 by discriminate.
  destruct (App.includes msg "Unable to calculate route"); reflexivity.
Qed.

Lemma api_error_is_shown_witness :
  let e := {| Api.errorMessage := "Request failed with status code 400";
              Api.response :=
                Some {| Api.data := Some {| Api.error := Some "cycleUsedHours must be between 0 and 70";
                                           Api.detail := None |};
                        Api.status := 400 |} |} in
  let st := {| App.isLoading := false; App.error := None;
               App.tripResult := @None unit |} in
  Api.dataField Api.error e = Some "cycleUsedHours must be between 0 and 70"
  /\ App.error (App.handleSubmit (App.Failed (Some "ERR_BAD_REQUEST") e) st)
     = Some "cycleUsedHours must be between 0 and 70".
Proof.
  cbv zeta. split; [reflexivity|].
  apply (api_error_is_shown unit (Some "ERR_BAD_REQUEST")
           {| Api.errorMessage := "Request failed with status code 400";
              Api.response :=
                Some {| Api.data := Some {| Api.error := Some "cycleUsedHours must be between 0 and 70";
                                           Api.detail := None |};
                        Api.status := 400 |} |}
           "cycleUsedHours must be between 0 and 70");
    [reflexivity | discriminate].
Defined.

(** ** TripItinerary: the schedule grouped by day *)

Section GroupingFacts.

Import Itinerary.

Variable Segment : Type.
Variable dayOf : Segment -> string.

Lemma daysOf_In (l : list Segment) (d : string) :
  In d (daysOf Segment dayOf l) <-> exists seg, In seg l /\ dayOf seg = d.
Proof.
  induction l as [|x l IH]; cbn [daysOf].
  - split; [intros [] | intros (seg & [] & _)].
  - cbn [In]. rewrite filter_In, IH, negb_true_iff, String.eqb_neq. split.
    + intros [<-|[(seg & Hin & <-) _]]; eauto.
    + intros (seg & [<-|Hin] & <-); [left; reflexivity|].
      destruct (String.eqb_spec (dayOf seg) (dayOf x)) as [->|Hne]; [left; reflexivity|].
      right. eauto.
Qed.

Lemma daysOf_NoDup (l : list Segment) : List.NoDup (daysOf Segment dayOf l).
Proof.
  induction l as [|x l IH]; cbn [daysOf]; constructor.
  - rewrite filter_In, negb_true_iff, String.eqb_neq. intros [_ H]. congruence.
  - apply List.NoDup_filter. exact IH.
Qed.

Lemma daysOf_snoc (l : list Segment) (seg : Segment) :
  daysOf Segment dayOf (l ++ [seg])
  = if bool_decide (dayOf seg ∈ daysOf Segment dayOf l) then daysOf Segment dayOf l
    else daysOf Segment dayOf l ++ [dayOf seg].
Proof.
  induction l as [|x l IH]; [reflexivity|].
  cbn [app daysOf]. rewrite IH.
  destruct (String.eqb_spec (dayOf seg) (dayOf x)) as [Heq|Hne].
  - rewrite (bool_decide_eq_true_2 (dayOf seg ∈ dayOf x :: _))
      by (apply list_elem_of_In; left; congruence).
    f_equal. case_bool_decide; [reflexivity|].
    rewrite List.filter_app. cbn [List.filter].
    rewrite Heq, String.eqb_refl. cbn [negb]. apply app_nil_r.
  - assert (Hiff : In (dayOf seg) (daysOf Segment dayOf l)
                   <-> In (dayOf seg)
                         (dayOf x :: List.filter (fun d => negb (String.eqb d (dayOf x)))
                                       (daysOf Segment dayOf l))).
    { cbn [In]. rewrite filter_In, negb_true_iff, String.eqb_neq. split.
      - intros H. right. split; [exact H | exact Hne].
      - intros [H|[H _]]; [congruence | exact H]. }
    rewrite <- !list_elem_of_In in Hiff.
    case_bool_decide as H1; case_bool_decide as H2; try tauto.
    rewrite List.filter_app. cbn [List.filter].
    replace (String.eqb (dayOf seg) (dayOf x)) with false
      by (symmetry; apply String.eqb_neq; exact Hne).
    reflexivity.
Qed.

Lemma segmentsOf_snoc (l : list Segment) (seg : Segment) (d : string) :
  segmentsOf Segment dayOf (l ++ [seg]) d
  = segmentsOf Segment dayOf l d ++ (if String.eqb (dayOf seg) d then [seg] else []).
Proof.
  unfold segmentsOf. rewrite List.filter_app. cbn [List.filter].
  destruct (String.eqb (dayOf seg) d); reflexivity.
Qed.

Lemma segmentsOf_absent (l : list Segment) (d : string) :
  ~ In d (daysOf Segment dayOf l) -> segmentsOf Segment dayOf l d = [].
Proof.
  intros H. unfold segmentsOf.
  induction l as [|x l IH]; [reflexivity|]. cbn [List.filter].
  destruct (String.eqb_spec (dayOf x) d) as [Heq|Hne].
  - exfalso. apply H. apply daysOf_In. exists x. split; [left; reflexivity | exact Heq].
  - apply IH. intros Hin. apply H. apply daysOf_In.
    apply daysOf_In in Hin as (seg & Hseg & Hday). exists seg. split; [right|]; assumption.
Qed.

Lemma lookupDay_map (f : string -> list Segment) (days : list string) (day : string) :
  lookupDay Segment (List.map (fun d => (d, f d)) days) day
  = if bool_decide (day ∈ days) then Some (f day) else None.
Proof.
  induction days as [|d days IH]; [reflexivity|].
  cbn [List.map lookupDay]. destruct (String.eqb_spec d day) as [->|Hne].
  - rewrite bool_decide_eq_true_2 by (apply elem_of_cons; left; reflexivity). reflexivity.
  - rewrite IH. case_bool_decide as H1; case_bool_decide as H2;
      rewrite ?elem_of_cons in *; first [reflexivity | exfalso; intuition congruence].
Qed.

Lemma pushDay_map (f : string -> list Segment) (days : list string) (day : string)
    (seg : Segment) :
  List.NoDup days ->
  pushDay Segment (List.map (fun d => (d, f d)) days) day seg
  = List.map (fun d => (d, f d ++ (if String.eqb day d then [seg] else []))) days.
Proof.
  induction days as [|d days IH]; intros Hnd; [reflexivity|].
  inversion Hnd as [|? ? Hnotin Hnd']; subst.
  cbn [List.map pushDay]. destruct (String.eqb_spec d day) as [->|Hne].
  - rewrite String.eqb_refl. f_equal.
    apply map_ext_in. intros d Hd.
    replace (String.eqb day d) with false; [rewrite app_nil_r; reflexivity|].
    symmetry. apply String.eqb_neq. intros ->. contradiction.
  - replace (String.eqb day d) with false
      by (symmetry; apply String.eqb_neq; congruence).
    rewrite app_nil_r, IH by exact Hnd'. reflexivity.
Qed.

(** The loop, entered with the groups of the segments already seen. *)
Lemma groupFrom_spec (rest : list Segment) :
  forall seen : list Segment,
    Forall (fun seg => dayOf seg ∉ Markers.objectPrototype) seen ->
    match groupFrom Segment dayOf (groupsOf Segment dayOf seen) rest with
    | JS.Returns groups =>
        Forall (fun seg => dayOf seg ∉ Markers.objectPrototype) rest
        /\ groups = groupsOf Segment dayOf (seen ++ rest)
    | JS.Throws _ => Exists (fun seg => dayOf seg ∈ Markers.objectPrototype) rest
    end.
Proof.
  induction rest as [|seg rest IH]; intros seen Hseen.
  - cbn. rewrite app_nil_r. split; [constructor | reflexivity].
  - cbn [groupFrom]. unfold addSegment.
    unfold groupsOf at 1. rewrite lookupDay_map.
    assert (Hstep : forall ok : dayOf seg ∉ Markers.objectPrototype,
               match groupFrom Segment dayOf (groupsOf Segment dayOf (seen ++ [seg])) rest with
               | JS.Returns groups =>
                   Forall (fun seg => dayOf seg ∉ Markers.objectPrototype) (seg :: rest)
                   /\ groups = groupsOf Segment dayOf (seen ++ seg :: rest)
               | JS.Throws _ =>
                   Exists (fun seg => dayOf seg ∈ Markers.objectPrototype) (seg :: rest)
               end).
    { intros ok.
      specialize (IH (seen ++ [seg])).
      destruct (groupFrom Segment dayOf (groupsOf Segment dayOf (seen ++ [seg])) rest).
      - destruct IH as [Hrest ->].
        + apply Forall_app. split; [exact Hseen | constructor; [exact ok | constructor]].
        + split; [constructor; assumption|]. rewrite <- app_assoc. reflexivity.
      - apply Exists_cons_tl. apply IH.
        apply Forall_app. split; [exact Hseen | constructor; [exact ok | constructor]]. }
    case_bool_decide as Hknown; rewrite list_elem_of_In in Hknown.
    + assert (ok : dayOf seg ∉ Markers.objectPrototype).
      { apply daysOf_In in Hknown as (seg' & Hin & Hday).
        rewrite List.Forall_forall in Hseen. rewrite <- Hday. apply Hseen. exact Hin. }
      replace (pushDay Segment (groupsOf Segment dayOf seen) (dayOf seg) seg)
        with (groupsOf Segment dayOf (seen ++ [seg])); [apply Hstep; exact ok|].
      unfold groupsOf. rewrite pushDay_map by apply daysOf_NoDup.
      rewrite daysOf_snoc, bool_decide_eq_true_2 by (apply list_elem_of_In; exact Hknown).
      apply map_ext. intros d. rewrite segmentsOf_snoc. reflexivity.
    + case_bool_decide as Hproto; [apply Exists_cons_hd; exact Hproto|].
      replace (pushDay Segment (groupsOf Segment dayOf seen ++ [(dayOf seg, [])]) (dayOf seg) seg)
        with (groupsOf Segment dayOf (seen ++ [seg])); [apply Hstep; exact Hproto|].
      unfold groupsOf.
      rewrite daysOf_snoc, bool_decide_eq_false_2 by (rewrite list_elem_of_In; exact Hknown).
      rewrite List.map_app. cbn [List.map].
      rewrite segmentsOf_snoc, String.eqb_refl, (segmentsOf_absent seen _ Hknown).
      cbn [app].
      replace (List.map (fun d => (d, segmentsOf Segment dayOf seen d)) (daysOf Segment dayOf seen) ++ [(dayOf seg, [])])
        with (List.map (fun d => (d, if String.eqb d (dayOf seg) then [] else segmentsOf Segment dayOf seen d))
                (daysOf Segment dayOf seen ++ [dayOf seg])).
      2:{ rewrite List.map_app. cbn [List.map]. rewrite String.eqb_refl. f_equal.
          apply map_ext_in. intros d Hd.
          destruct (String.eqb_spec d (dayOf seg)) as [->|]; [contradiction | reflexivity]. }
      rewrite pushDay_map.
      2:{ apply NoDup_ListNoDup, NoDup_app. repeat split.
          - apply NoDup_ListNoDup, daysOf_NoDup.
          - intros d Hd Hd'. apply list_elem_of_In in Hd.
            apply list_elem_of_singleton in Hd'. subst. contradiction.
          - apply NoDup_singleton. }
      rewrite List.map_app. cbn [List.map]. rewrite String.eqb_refl. cbn [app]. f_equal.
      apply map_ext_in. intros d Hd. rewrite segmentsOf_snoc.
      destruct (String.eqb_spec d (dayOf seg)) as [->|Hne]; [contradiction|].
      replace (String.eqb (dayOf seg) d) with false
        by (symmetry; apply String.eqb_neq; congruence).
      reflexivity.
Qed.

Lemma insertByIndex_perm (g : string * list Segment) (l : Groups Segment) :
  Permutation (insertByIndex Segment g l) (g :: l).
Proof.
  induction l as [|h l IH]; cbn [insertByIndex]; [reflexivity|].
  destruct (indexOf Segment g <=? indexOf Segment h)%N; [reflexivity|].
  rewrite IH. apply perm_swap.
Qed.

Lemma sortByIndex_perm (l : Groups Segment) : Permutation (sortByIndex Segment l) l.
Proof.
  induction l as [|g l IH]; [reflexivity|].
  cbn [sortByIndex List.fold_right]. fold (sortByIndex Segment l).
  rewrite insertByIndex_perm, IH. reflexivity.
Qed.

Lemma insertByIndex_sorted (g : string * list Segment) (l : Groups Segment) :
  StronglySorted (fun a b => (indexOf Segment a <= indexOf Segment b)%N) l ->
  StronglySorted (fun a b => (indexOf Segment a <= indexOf Segment b)%N)
    (insertByIndex Segment g l).
Proof.
  induction 1 as [|h l Hs IH Hh]; cbn [insertByIndex].
  - constructor; constructor.
  - destruct (indexOf Segment g <=? indexOf Segment h)%N eqn:E.
    + apply N.leb_le in E. constructor; [constructor; assumption|].
      constructor; [exact E|].
      eapply List.Forall_impl; [|exact Hh]. cbn. intros a Ha. lia.
    + apply N.leb_gt in E. constructor; [exact IH|].
      apply List.Forall_forall. intros a Ha.
      apply (Permutation_in _ (insertByIndex_perm g l)) in Ha.
      destruct Ha as [<-|Ha]; [lia|].
      eapply List.Forall_forall in Hh; [exact Hh | exact Ha].
Qed.

Lemma sortByIndex_sorted (l : Groups Segment) :
  StronglySorted (fun a b => (indexOf Segment a <= indexOf Segment b)%N)
    (sortByIndex Segment l).
Proof.
  induction l as [|g l IH]; [constructor|].
  cbn [sortByIndex List.fold_right]. apply insertByIndex_sorted. exact IH.
Qed.

(** Without an array index among the keys the object lists its properties
    in the order of creation. *)
Lemma entries_creation_order (groups : Groups Segment) :
  List.Forall (fun g => arrayIndex (fst g) = None) groups ->
  entries Segment groups = groups.
Proof.
  intros H. unfold entries.
  assert (Hnil : List.filter (isIndexed Segment) groups = []).
  { induction H as [|g l Hg Hl IH]; [reflexivity|].
    cbn [List.filter]. unfold isIndexed at 1. rewrite Hg. exact IH. }
  assert (Hall : List.filter (fun g => negb (isIndexed Segment g)) groups = groups).
  { induction H as [|g l Hg Hl IH]; [reflexivity|].
    cbn [List.filter]. unfold isIndexed at 1. rewrite Hg. cbn [negb].
    f_equal. apply IH.
    cbn [List.filter] in Hnil. unfold isIndexed at 1 in Hnil. rewrite Hg in Hnil.
    exact Hnil. }
  rewrite Hnil, Hall. reflexivity.
Qed.

End GroupingFacts.

(** X16: grouping the schedule by day either throws, and it does so exactly
    when some day label is the name of a property of Object.prototype, or
    it gives one property for every day that occurs, created in the order
    of first appearance and holding exactly the segments of its day in
    schedule order. Object.entries lists these groups with the days that
    are array indices first, in ascending order of the index, and then the
    other days in the order of first appearance; when no day label is an
    array index, that is the order of first appearance for all of them. *)
Theorem scheduleByDay_groups (Segment : Type) (dayOf : Segment -> string)
    (schedule : list Segment) :
  match Itinerary.scheduleByDay Segment dayOf schedule with
  | JS.Returns groups =>
      Forall (fun seg => dayOf seg ∉ Markers.objectPrototype) schedule
      /\ groups = Itinerary.groupsOf Segment dayOf schedule
      /\ (exists indexed,
            Itinerary.entries Segment groups
            = indexed
              ++ List.filter (fun g => negb (Itinerary.isIndexed Segment g))
                   (Itinerary.groupsOf Segment dayOf schedule)
            /\ Permutation indexed
                 (List.filter (Itinerary.isIndexed Segment)
                    (Itinerary.groupsOf Segment dayOf schedule))
            /\ StronglySorted
                 (fun g h => (Itinerary.indexOf Segment g <= Itinerary.indexOf Segment h)%N)
                 indexed)
      /\ (Forall (fun seg => Itinerary.arrayIndex (dayOf seg) = None) schedule ->
          Itinerary.entries Segment groups = Itinerary.groupsOf Segment dayOf schedule)
  | JS.Throws _ =>
      Exists (fun seg => dayOf seg ∈ Markers.objectPrototype) schedule
  end.
Proof.
  unfold Itinerary.scheduleByDay.
  pose proof (groupFrom_spec Segment dayOf schedule [] (List.Forall_nil _)) as H.
  change (Itinerary.groupsOf Segment dayOf []) with (@nil (string * list Segment)) in H.
  change ([] ++ schedule) with schedule in H.
  destruct (Itinerary.groupFrom Segment dayOf [] schedule) as [groups|e]; [|exact H].
  destruct H as [Hproto ->]. split; [exact Hproto|]. split; [reflexivity|]. split.
  - eexists. split; [reflexivity|]. split.
    + apply sortByIndex_perm.
    + apply sortByIndex_sorted.
  - intros Hidx. apply entries_creation_order.
    unfold Itinerary.groupsOf. apply List.Forall_forall. intros g Hg.
    apply in_map_iff in Hg as (d & <- & Hd). cbn [fst].
    apply daysOf_In in Hd as (seg & Hseg & <-).
    eapply List.Forall_forall in Hidx; [exact Hidx | exact Hseg].
Qed.

(** ** TripForm: the hours across the wizard *)

Section WizardHours.

Import TripForm Wizard.

Variable parseFloat : string -> Number.

Lemma dispatch_keeps_hours (ev : Event) (st : State) :
  sliderWithinRange ev ->
  within 0 70 (cycleUsedHours (formData st)) ->
  within 0 70 (cycleUsedHours (formData (fst (dispatch parseFloat ev st)))).
Proof.
  intros Hev H. destruct ev as [value|text|value| | |]; cbn [dispatch].
  - destruct (renderedField (currentStep st)) as [[| |]|]; exact H.
  - destruct (currentStep st =? 4); [|exact H].
    cbn. apply clamp_within, orZero_not_NaN.
  - destruct (currentStep st =? 4); [exact Hev | exact H].
  - destruct (currentStep st <? 4); [|exact H].
    unfold handleNext, validateStep.
    repeat match goal with |- context [if ?c then _ else _] => destruct c end; exact H.
  - destruct (currentStep st =? 1); exact H.
  - unfold handleSubmit, handleNext, validateStep.
    repeat match goal with |- context [if ?c then _ else _] => destruct c end; exact H.
Qed.

Lemma run_from_keeps_hours (events : list Event) :
  forall st,
    Forall sliderWithinRange events ->
    within 0 70 (cycleUsedHours (formData st)) ->
    within 0 70
      (cycleUsedHours
         (formData (fold_left (fun st ev => fst (dispatch parseFloat ev st)) events st))).
Proof.
  induction events as [|ev events IH]; intros st Hall H; [exact H|].
  inversion Hall as [|? ? Hev Hrest]; subst.
  cbn [fold_left]. apply IH; [exact Hrest|]. apply dispatch_keeps_hours; assumption.
Qed.

Lemma within_passes_check (h : Number) :
  within 0 70 h -> lessThan h (Finite 0) || lessThan (Finite 70) h = false.
Proof.
  intros (q & -> & Hlo & Hhi). cbn.
  apply Qle_bool_iff in Hlo, Hhi. rewrite Hlo, Hhi. reflexivity.
Qed.

End WizardHours.

(** X17: as long as the slider reports values within its range, the cycle
    hours of the form stay a number within [0, 70] whatever else the user
    does, and a form submission on step 4 always hands the form data to
    onSubmit. *)
Theorem hours_stay_in_range (parseFloat : string -> TripForm.Number)
    (events : list Wizard.Event) :
  Forall Wizard.sliderWithinRange events ->
  TripForm.within 0 70
    (TripForm.cycleUsedHours (Wizard.formData (Wizard.run parseFloat events)))
  /\ (Wizard.currentStep (Wizard.run parseFloat events) = 4 ->
      snd (Wizard.dispatch parseFloat Wizard.FormSubmitted (Wizard.run parseFloat events))
      = Some (Wizard.formData (Wizard.run parseFloat events))).
Proof.
  intros Hall.
  assert (Hin : TripForm.within 0 70
                  (TripForm.cycleUsedHours (Wizard.formData (Wizard.run parseFloat events)))).
  { unfold Wizard.run. apply run_from_keeps_hours; [exact Hall|].
    exists 0%Q. split; [reflexivity|]. split; discriminate. }
  split; [exact Hin|]. intros Hstep.
  cbn [Wizard.dispatch]. unfold Wizard.handleSubmit. rewrite Hstep.
  cbn [Z.ltb Z.compare Pos.compare Pos.compare_cont].
  unfold Wizard.validateStep. cbn [Z.eqb Pos.eqb].
  rewrite (within_passes_check _ Hin). reflexivity.
Qed.

Lemma hours_stay_in_range_witness :
  let parseFloat := fun _ : string => TripForm.Finite 99 in
  let events := [Wizard.LocationEdited (TripForm.mkLocation None None "Denver, CO");
                 Wizard.ContinueClicked;
                 Wizard.LocationEdited (TripForm.mkLocation None None "Omaha, NE");
                 Wizard.ContinueClicked;
                 Wizard.LocationEdited (TripForm.mkLocation None None "Dallas, TX");
                 Wizard.ContinueClicked;
                 Wizard.SliderMoved (TripForm.Finite 12.5);
                 Wizard.HoursTyped "99"] in
  Forall Wizard.sliderWithinRange events
  /\ TripForm.within 0 70
       (TripForm.cycleUsedHours (Wizard.formData (Wizard.run parseFloat events))).
Proof.
  cbv zeta.
  assert (H : Forall Wizard.sliderWithinRange
                [Wizard.LocationEdited (TripForm.mkLocation None None "Denver, CO");
                 Wizard.ContinueClicked;
                 Wizard.LocationEdited (TripForm.mkLocation None None "Omaha, NE");
                 Wizard.ContinueClicked;
                 Wizard.LocationEdited (TripForm.mkLocation None None "Dallas, TX");
                 Wizard.ContinueClicked;
                 Wizard.SliderMoved (TripForm.Finite 12.5);
                 Wizard.HoursTyped "99"]).
  { repeat constructor.
    exists 12.5%Q. split; [reflexivity|]. split; discriminate. }
  split; [exact H|].
  exact (proj1 (hours_stay_in_range (fun _ : string => TripForm.Finite 99) _ H)).
Defined.
